(** * The mpv IPC client (ipc.go): request correlation over one socket

    A shallow embedding of the transport layer of package [mpv]:
    [newRequest], [registerEvent], [dispatch], the bodies of [writeloop] and
    [readloop], and [Exec].  Go values of static type [interface{}] are a
    small tagged union, maps are [gmap]s, buffered channels are queues kept
    in a heap indexed by channel address, and the results of calls into the
    Go runtime and standard library ([rand.Intn], [json.Marshal],
    [json.Unmarshal], [conn.Write], [rd.ReadBytes], timers) are inputs of
    the step that performs the call.  The methods of the high-level
    [Client] that are built on [Exec] come with the command they pass and
    with what they make of its result. *)

From Stdlib Require Import ZArith String Ascii DecimalString.
From stdpp Require Import gmap strings list fin_maps.

Local Open Scope Z_scope.

(** ** Go values and control outcomes *)

(** A value of static type [interface{}].  Only the dynamic type [string]
    is inspected by the transport code; every other dynamic type is kept
    apart from it. *)
Inductive value : Type :=
  | VNil
  | VBool (b : bool)
  | VInt (n : Z)
  | VFloat (bits : Z)
  | VString (s : string)
  | VOther (tag : nat).

(** How a call that performs no channel operation ends: it returns or it
    panics. *)
Inductive result (A : Type) : Type :=
  | Returns (a : A)
  | Panics (msg : string).
Arguments Returns {A} a.
Arguments Panics {A} msg.

#[global] Instance result_ret : MRet result := fun A a => Returns a.
#[global] Instance result_bind : MBind result := fun A B k m =>
  match m with
  | Returns a => k a
  | Panics msg => Panics msg
  end.

(** [v.(string)]: the unchecked type assertion. *)
Definition assert_string (v : value) : result string :=
  match v with
  | VString s => Returns s
  | _ => Panics "interface conversion: interface {} is not string"
  end.

(** [v == s] for [v] of type [interface{}] and [s] a string constant. *)
Definition value_eq_string (v : value) (s : string) : bool :=
  match v with
  | VString t => String.eqb t s
  | _ => false
  end.

(** [cmd[i]]: indexing a slice panics out of range. *)
Definition index (cmd : list value) (i : nat) : result value :=
  match cmd !! i with
  | Some v => Returns v
  | None => Panics "index out of range"
  end.

(** ** Data model *)

(** Address of a channel made by [make(chan *Response, 1)]. *)
Definition chan : Type := nat.

(** A registered event callback.  The body of a callback is not part of
    the transport; a callback is identified by a name and its invocations
    are recorded. *)
Definition handleEvent : Type := nat.

Record Response : Type := mkResponse {
  Err : string;
  Data : value;
  Event : string;
  resp_RequestID : Z;
  Bytes : list Byte.byte
}.

(** The fields of a [request] are never assigned after [newRequest]
    returns, so the pointer [*request] is represented by the record; the
    field [Response] of the source is [req_Response]. *)
Record request : Type := mkRequest {
  Command : list value;
  RequestID : Z;
  req_Response : chan;
  RawString : string
}.

Inductive error : Type :=
  | ErrTimeoutSend
  | ErrTimeoutRecv
  | ErrOther (msg : string).

Definition with_RawString (req : request) (s : string) : request :=
  {| Command := Command req; RequestID := RequestID req;
     req_Response := req_Response req; RawString := s |}.

(** [newRequest(cmd...)].  [rnd] is the value returned by
    [rand.Intn(10000)] and [ch] the channel returned by [make]. *)
Definition newRequest (rnd : Z) (ch : chan) (cmd : list value) : result request :=
  let req := {| Command := cmd; RequestID := rnd;
                req_Response := ch; RawString := EmptyString |} in
  if (length cmd <? 2)%nat then Returns req
  else
    c0 ← index cmd 0;
    s0 ← assert_string c0;
    if String.eqb s0 "raw" then
      c1 ← index cmd 1;
      s1 ← assert_string c1;
      Returns (with_RawString req s1)
    else Returns req.

(** The values [rand.Intn(n)] can return. *)
Definition Intn_range (n r : Z) : Prop := 0 <= r < n.

(** ** Wire format of the raw escape *)

Definition dquote : string := String "034"%char EmptyString.
Definition newline : string := String "010"%char EmptyString.

(** [%d] applied to an [int]. *)
Definition fmt_d (n : Z) : string := NilZero.string_of_int (Z.to_int n).

(** [fmt.Sprintf("{%s,\"%s\":%d}\n", raw, key, id)]. *)
Definition sprintf_raw (raw key : string) (id : Z) : string :=
  ("{" ++ raw ++ "," ++ dquote ++ key ++ dquote ++ ":" ++ fmt_d id ++ "}"
   ++ newline)%string.

(** [len(req.Command) > 1 && req.Command[0] == "raw"]. *)
Definition is_raw (req : request) : bool :=
  match Command req with
  | c0 :: _ :: _ => value_eq_string c0 "raw"
  | _ => false
  end.

(** The bytes handed to [conn.Write] for [req], where [b] is what
    [json.Marshal(req)] returned. *)
Definition outbound (req : request) (b : list Byte.byte) : list Byte.byte :=
  let b := b ++ [Byte.x0a] in
  if is_raw req then
    list_byte_of_string (sprintf_raw (RawString req) "request_id" (RequestID req))
  else b.

(** ** Shared state *)

(** What the goroutines of one client share: the two tables of
    [IPCClient] (guarded by [mu]), the buffers of the reply channels, the
    byte stream written to [conn] so far, and the callback invocations
    made so far. *)
Record State : Type := mkState {
  reqMap : gmap Z request;
  event : gmap string handleEvent;
  chans : gmap chan (list Response);
  conn : list Byte.byte;
  calls : list (handleEvent * Response)
}.

Definition set_reqMap (f : gmap Z request -> gmap Z request) (c : State) : State :=
  {| reqMap := f (reqMap c); event := event c; chans := chans c;
     conn := conn c; calls := calls c |}.

Definition set_event (f : gmap string handleEvent -> gmap string handleEvent)
    (c : State) : State :=
  {| reqMap := reqMap c; event := f (event c); chans := chans c;
     conn := conn c; calls := calls c |}.

Definition set_chans (f : gmap chan (list Response) -> gmap chan (list Response))
    (c : State) : State :=
  {| reqMap := reqMap c; event := event c; chans := f (chans c);
     conn := conn c; calls := calls c |}.

Definition set_conn (f : list Byte.byte -> list Byte.byte) (c : State) : State :=
  {| reqMap := reqMap c; event := event c; chans := chans c;
     conn := f (conn c); calls := calls c |}.

Definition set_calls (f : list (handleEvent * Response) -> list (handleEvent * Response))
    (c : State) : State :=
  {| reqMap := reqMap c; event := event c; chans := chans c;
     conn := conn c; calls := f (calls c) |}.

(** [NewIPCClient]: both tables empty. *)
Definition NewIPCClient : State :=
  {| reqMap := ∅; event := ∅; chans := ∅; conn := []; calls := [] |}.

(** Capacity of a reply channel: [make(chan *Response, 1)]. *)
Definition reply_cap : nat := 1.

(** [make(chan *Response, 1)] at address [ch]. *)
Definition make_chan (ch : chan) (c : State) : State :=
  set_chans (fun h => <[ch := []]> h) c.

(** [ch <- v]: appends to the buffer; [None] when the send cannot
    proceed, the buffer being full. *)
Definition chan_send (ch : chan) (v : Response) (c : State) : option State :=
  match chans c !! ch with
  | Some buf =>
      if (length buf <? reply_cap)%nat
      then Some (set_chans (fun h => <[ch := buf ++ [v]]> h) c)
      else None
  | None => None
  end.

(** [v := <-ch]: takes the oldest buffered value; [None] when the receive
    cannot proceed, the buffer being empty. *)
Definition chan_recv (ch : chan) (c : State) : option (Response * State) :=
  match chans c !! ch with
  | Some (v :: buf) => Some (v, set_chans (fun h => <[ch := buf]> h) c)
  | _ => None
  end.

(** ** Event registration and dispatch *)

Definition registerEvent (name : string) (fn : handleEvent) (c : State) : State :=
  set_event (fun e => <[name := fn]> e) c.

(** [dispatch(resp)], run with [mu] held from entry to return.  [None]:
    the goroutine is stuck at [req.Response <- resp]. *)
Definition dispatch (resp : Response) (c : State) : option State :=
  if String.eqb (Event resp) EmptyString then
    match reqMap c !! resp_RequestID resp with
    | Some req =>
        chan_send (req_Response req) resp
                  (set_reqMap (fun m => delete (resp_RequestID resp) m) c)
    | None => Some c
    end
  else
    match event c !! Event resp with
    | Some handleFunc => Some (set_calls (fun l => l ++ [(handleFunc, resp)]) c)
    | None => Some c
    end.

(** ** The write loop *)

(** What an iteration of a [for] loop does next. *)
Inductive loop (A : Type) : Type :=
  | Continue (a : A)
  | Break (a : A).
Arguments Continue {A} a.
Arguments Break {A} a.

(** First half of an iteration, for the request [req] received from
    [c.comm]: [marshal] is what [json.Marshal(req)] returned ([None] for
    an error).  Returns the bytes to write, or [None] when the iteration
    is abandoned by [continue]. *)
Definition writeloop_register (req : request) (marshal : option (list Byte.byte))
    (c : State) : State * option (list Byte.byte) :=
  match marshal with
  | None => (c, None)
  | Some b =>
      (set_reqMap (fun m => <[RequestID req := req]> m) c, Some (outbound req b))
  end.

(** What [conn.Write(b)] returned: all of [b] written, or an error after
    [n] bytes. *)
Inductive write_result : Type :=
  | WriteOk
  | WriteErr (n : nat) (err : error).

(** [conn.Write(b)] itself. *)
Definition conn_Write (b : list Byte.byte) (r : write_result) (c : State) : State :=
  match r with
  | WriteOk => set_conn (fun w => w ++ b) c
  | WriteErr n _ => set_conn (fun w => w ++ take n b) c
  end.

(** The [if err != nil] block after the write. *)
Definition writeloop_after (req : request) (r : write_result) (c : State) : State :=
  match r with
  | WriteOk => c
  | WriteErr _ _ => set_reqMap (fun m => delete (RequestID req) m) c
  end.

(** Where the write loop stands: at [<-c.comm]; holding a request, before
    [json.Marshal]; at [conn.Write(b)]; at [if err != nil] after it.
    [c.comm] is never closed by the package, so the [!ok] branch of the
    receive (a panic) is never taken. *)
Inductive write_pc : Type :=
  | WIdle
  | WGot (req : request)
  | WWrite (req : request) (b : list Byte.byte)
  | WAfter (req : request) (r : write_result).

(** One iteration of [writeloop] run without interruption. *)
Definition writeloop_body (req : request) (marshal : option (list Byte.byte))
    (r : write_result) (c : State) : loop State :=
  let '(c, ob) := writeloop_register req marshal c in
  match ob with
  | None => Continue c
  | Some b => Continue (writeloop_after req r (conn_Write b r c))
  end.

(** ** The read loop *)

(** What one iteration reads: [rd.ReadBytes] fails; or it returns [data]
    and [json.Unmarshal] fails; or it returns [data] and [json.Unmarshal]
    succeeds, [resp] being the content of the variable [resp] at that
    point ([Bytes] set to a copy of [data], the other fields as decoded). *)
Inductive read_result : Type :=
  | ReadErr (err : error)
  | DecodeErr (data : list Byte.byte) (err : error)
  | Decoded (data : list Byte.byte) (resp : Response).

(** One iteration of [readloop]; [None] when it is stuck in [dispatch]. *)
Definition readloop_body (r : read_result) (c : State) : option (loop State) :=
  match r with
  | ReadErr _ => Some (Continue c)
  | DecodeErr _ _ => Some (Continue c)
  | Decoded _ resp => c ← dispatch resp c; Some (Continue c)
  end.

(** The read loop over the successive results of its reads. *)
Fixpoint readloop (rs : list read_result) (c : State) : option (loop State) :=
  match rs with
  | [] => Some (Continue c)
  | r :: rs =>
      l ← readloop_body r c;
      match l with
      | Continue c => readloop rs c
      | Break c => Some (Break c)
      end
  end.

(** ** Exec *)

(** Which ready case a [select] takes. *)
Inductive select_case : Type :=
  | CaseChan
  | CaseTimer.

(** Where a call of [Exec] stands: at its first [select], at its second
    [select], returned, or panicked. *)
Inductive exec_pc : Type :=
  | AtSend (req : request)
  | AtRecv (req : request)
  | Returned (res : option Response) (err : option error)
  | Panicked (msg : string).

(** Entry of [Exec]: [newRequest(command...)]. *)
Definition Exec_enter (rnd : Z) (ch : chan) (command : list value) (c : State)
    : State * exec_pc :=
  (make_chan ch c,
   match newRequest rnd ch command with
   | Returns req => AtSend req
   | Panics msg => Panicked msg
   end).

(** The second [select]; [None] when the chosen case is not ready.  No
    channel is ever closed by the package, so the [!ok] branch (a panic)
    is never taken. *)
Definition Exec_recv (req : request) (k : select_case) (c : State)
    : option (State * exec_pc) :=
  match k with
  | CaseChan =>
      '(res, c) ← chan_recv (req_Response req) c;
      Some (c, Returned (Some res) None)
  | CaseTimer => Some (c, Returned None (Some ErrTimeoutRecv))
  end.

(** The first [select]: the send on [c.comm] completes when the write
    loop is at its receive, which then holds [req].  [None] when the
    chosen case is not ready. *)
Definition Exec_send (req : request) (k : select_case) (w : write_pc)
    : option (write_pc * exec_pc) :=
  match k with
  | CaseChan =>
      match w with
      | WIdle => Some (WGot req, AtRecv req)
      | _ => None
      end
  | CaseTimer => Some (w, Returned None (Some ErrTimeoutSend))
  end.

(** ** The goroutines together *)

(** What the write loop has done, for the record of a run. *)
Inductive obs : Type :=
  | EvInsert (req : request)
  | EvWrite (req : request) (b : list Byte.byte) (r : write_result).

(** A client with its goroutines: the shared state, the write loop, whether
    the read loop is still running, every call of [Exec] made so far, and
    the record of the write loop's insertions and writes, oldest first. *)
Record System : Type := mkSystem {
  shared : State;
  writer : write_pc;
  reading : bool;
  callers : list exec_pc;
  log : list obs
}.

(** [NewIPCClient] followed by [run]: both loops started, no call yet. *)
Definition boot : System :=
  {| shared := NewIPCClient; writer := WIdle; reading := true;
     callers := []; log := [] |}.

(** One atomic move of one goroutine, with the outcome of the runtime or
    library call it makes. *)
Inductive action : Type :=
  | ACall (command : list value) (rnd : Z) (ch : chan)
  | ASend (i : nat) (k : select_case)
  | AMarshal (marshal : option (list Byte.byte))
  | AWrite (r : write_result)
  | AAfter
  | ARead (r : read_result)
  | ARecv (i : nat) (k : select_case)
  | ARegisterEvent (name : string) (fn : handleEvent).

#[global] Instance Intn_range_dec n r : Decision (Intn_range n r).
Proof. unfold Intn_range. apply _. Defined.

(** The move [a] made from [s]; [None] when the goroutine is not at that
    point or cannot proceed.  A critical section under [mu] is one move;
    the timer case of a [select] may be taken at any time; the index of a
    call of [Exec] is its rank among the calls made. *)
Definition step (a : action) (s : System) : option System :=
  match a with
  | ACall command rnd ch =>
      if decide (Intn_range 10000 rnd ∧ chans (shared s) !! ch = None) then
        let '(c, pc) := Exec_enter rnd ch command (shared s) in
        Some {| shared := c; writer := writer s; reading := reading s;
                callers := callers s ++ [pc]; log := log s |}
      else None
  | ASend i k =>
      match callers s !! i with
      | Some (AtSend req) =>
          match Exec_send req k (writer s) with
          | Some (w, pc) =>
              Some {| shared := shared s; writer := w; reading := reading s;
                      callers := <[i := pc]> (callers s); log := log s |}
          | None => None
          end
      | _ => None
      end
  | AMarshal marshal =>
      match writer s with
      | WGot req =>
          let '(c, ob) := writeloop_register req marshal (shared s) in
          Some {| shared := c;
                  writer := match ob with Some b => WWrite req b | None => WIdle end;
                  reading := reading s; callers := callers s;
                  log := log s ++ match ob with Some _ => [EvInsert req] | None => [] end |}
      | _ => None
      end
  | AWrite r =>
      match writer s with
      | WWrite req b =>
          Some {| shared := conn_Write b r (shared s); writer := WAfter req r;
                  reading := reading s; callers := callers s;
                  log := log s ++ [EvWrite req b r] |}
      | _ => None
      end
  | AAfter =>
      match writer s with
      | WAfter req r =>
          Some {| shared := writeloop_after req r (shared s); writer := WIdle;
                  reading := reading s; callers := callers s; log := log s |}
      | _ => None
      end
  | ARead r =>
      if reading s then
        match readloop_body r (shared s) with
        | Some (Continue c) =>
            Some {| shared := c; writer := writer s; reading := true;
                    callers := callers s; log := log s |}
        | Some (Break c) =>
            Some {| shared := c; writer := writer s; reading := false;
                    callers := callers s; log := log s |}
        | None => None
        end
      else None
  | ARecv i k =>
      match callers s !! i with
      | Some (AtRecv req) =>
          match Exec_recv req k (shared s) with
          | Some (c, pc) =>
              Some {| shared := c; writer := writer s; reading := reading s;
                      callers := <[i := pc]> (callers s); log := log s |}
          | None => None
          end
      | _ => None
      end
  | ARegisterEvent name fn =>
      Some {| shared := registerEvent name fn (shared s); writer := writer s;
              reading := reading s; callers := callers s; log := log s |}
  end.

(** A run: the moves of a schedule, one after the other. *)
Fixpoint run_moves (tr : list action) (s : System) : option System :=
  match tr with
  | [] => Some s
  | a :: tr => s ← step a s; run_moves tr s
  end.

Definition reachable (s : System) : Prop := ∃ tr, run_moves tr boot = Some s.

(** The moves of a call of [Exec]. *)
Definition is_Exec_move (a : action) : bool :=
  match a with
  | ACall _ _ _ | ASend _ _ | ARecv _ _ => true
  | _ => false
  end.

(** ** An invariant of every run

    A request is held for registration by the caller that made it (until
    the hand-off), then by the write loop (until it is inserted), then by
    the table (until it is resolved, replaced or deleted).  Each holder has
    its own reply channel, and the channel of a held request is empty. *)

Record invariant (s : System) : Prop := mkInvariant {
  inv_key : ∀ id req,
    reqMap (shared s) !! id = Some req →
    RequestID req = id ∧ Intn_range 10000 id;
  inv_pending_slot : ∀ id req,
    reqMap (shared s) !! id = Some req →
    chans (shared s) !! req_Response req = Some [];
  inv_send_slot : ∀ i req,
    callers s !! i = Some (AtSend req) →
    chans (shared s) !! req_Response req = Some [] ∧
    Intn_range 10000 (RequestID req);
  inv_got_slot : ∀ req,
    writer s = WGot req →
    chans (shared s) !! req_Response req = Some [] ∧
    Intn_range 10000 (RequestID req);
  inv_pending_pending : ∀ id id' req req',
    reqMap (shared s) !! id = Some req →
    reqMap (shared s) !! id' = Some req' →
    req_Response req = req_Response req' → id = id';
  inv_send_send : ∀ i j req req',
    callers s !! i = Some (AtSend req) →
    callers s !! j = Some (AtSend req') →
    req_Response req = req_Response req' → i = j;
  inv_send_got : ∀ i req req',
    callers s !! i = Some (AtSend req) →
    writer s = WGot req' →
    req_Response req ≠ req_Response req';
  inv_send_pending : ∀ i id req req',
    callers s !! i = Some (AtSend req) →
    reqMap (shared s) !! id = Some req' →
    req_Response req ≠ req_Response req';
  inv_got_pending : ∀ id req req',
    writer s = WGot req →
    reqMap (shared s) !! id = Some req' →
    req_Response req ≠ req_Response req';
  inv_reading : reading s = true;
  inv_inserted : ∀ req b,
    writer s = WWrite req b → EvInsert req ∈ log s;
  inv_log : ∀ i req b r,
    log s !! i = Some (EvWrite req b r) →
    ∃ j, (j < i)%nat ∧ log s !! j = Some (EvInsert req);
  inv_cap : ∀ ch buf,
    chans (shared s) !! ch = Some buf → (length buf ≤ reply_cap)%nat
}.

(** ** Sample data *)

Definition quoted (s : string) : string := (dquote ++ s ++ dquote)%string.

(** The fragment [InputCmd] passes for [playlist-remove] with index 5:
    ["command":["playlist-remove"],"index":5]. *)
Definition fragment_playlist_remove_5 : string :=
  (quoted "command" ++ ":[" ++ quoted "playlist-remove" ++ "],"
   ++ quoted "index" ++ ":5")%string.

(** The record
    [{"command":["playlist-remove"],"index":5,"request_id":42}] and a
    newline. *)
Definition record_playlist_remove_5_42 : list Byte.byte :=
  list_byte_of_string
    ("{" ++ quoted "command" ++ ":[" ++ quoted "playlist-remove" ++ "],"
     ++ quoted "index" ++ ":5," ++ quoted "request_id" ++ ":42}" ++ newline)%string.

Definition cmd_volume : list value := [VString "get_property"; VString "volume"].

Definition req_volume_42 : request :=
  {| Command := cmd_volume; RequestID := 42; req_Response := 0%nat;
     RawString := EmptyString |}.

(** What [json.Marshal] returns for [req_volume_42]: the object with
    ["command":["get_property","volume"]], ["request_id":42] and an empty
    ["RawString"], in this order (the field [Response] is tagged [-]). *)
Definition json_volume_42 : list Byte.byte :=
  list_byte_of_string
    ("{" ++ quoted "command" ++ ":[" ++ quoted "get_property" ++ ","
     ++ quoted "volume" ++ "]," ++ quoted "request_id" ++ ":42,"
     ++ quoted "RawString" ++ ":" ++ quoted EmptyString ++ "}")%string.

(** A reply of mpv to request 42:
    [{"data":50.000000,"request_id":42,"error":"success"}]. *)
Definition data_reply_42 : list Byte.byte :=
  list_byte_of_string
    ("{" ++ quoted "data" ++ ":50.000000," ++ quoted "request_id" ++ ":42,"
     ++ quoted "error" ++ ":" ++ quoted "success" ++ "}" ++ newline)%string.

Definition reply_42 : Response :=
  {| Err := "success"; Data := VFloat 4632233691727265792;
     Event := EmptyString; resp_RequestID := 42; Bytes := data_reply_42 |}.

(** [Exec("get_property", "volume")] draws id 42, hands its request to the
    write loop, which inserts it and writes it. *)
Definition run_volume_42 : list action :=
  [ACall cmd_volume 42 0%nat; ASend 0 CaseChan; AMarshal (Some json_volume_42);
   AWrite WriteOk; AAfter].

(** The client after [run_volume_42]. *)
Definition sys_volume_42 : System :=
  {| shared := {| reqMap := {[42 := req_volume_42]}; event := ∅;
                  chans := {[0%nat := []]};
                  conn := json_volume_42 ++ [Byte.x0a]; calls := [] |};
     writer := WIdle; reading := true;
     callers := [AtRecv req_volume_42];
     log := [EvInsert req_volume_42;
             EvWrite req_volume_42 (json_volume_42 ++ [Byte.x0a]) WriteOk] |}.

Definition cmd_pause : list value := [VString "get_property"; VString "pause"].

Definition req_pause_42 : request :=
  {| Command := cmd_pause; RequestID := 42; req_Response := 1%nat;
     RawString := EmptyString |}.

(** What [json.Marshal] returns for [req_pause_42]: the object with
    ["command":["get_property","pause"]], ["request_id":42] and an empty
    ["RawString"]. *)
Definition json_pause_42 : list Byte.byte :=
  list_byte_of_string
    ("{" ++ quoted "command" ++ ":[" ++ quoted "get_property" ++ ","
     ++ quoted "pause" ++ "]," ++ quoted "request_id" ++ ":42,"
     ++ quoted "RawString" ++ ":" ++ quoted EmptyString ++ "}")%string.

(** A second call, [Exec("get_property", "pause")], drawing 42 as well. *)
Definition run_pause_42 : list action :=
  [ACall cmd_pause 42 1%nat; ASend 1 CaseChan; AMarshal (Some json_pause_42);
   AWrite WriteOk; AAfter].


(** ** The high-level client (client.go)

    A method of [Client] calls [Exec] with a command and makes its result
    out of the pair [(res, err)] that [Exec] returns; each method is given
    by the command it passes and by what it does with that pair. *)

(** [errors.New(msg)]. *)
Definition errors_New (msg : string) : error := ErrOther msg.

Definition ErrInvalidType : error := errors_New "Invalid type".

(** The fragment [PlaylistRemove(n)] formats with [%d]. *)
Definition PlaylistRemove_fragment (n : Z) : string :=
  (quoted "command" ++ ":[" ++ quoted "playlist-remove" ++ "],"
   ++ quoted "index" ++ ":" ++ fmt_d n)%string.

(** The arguments [PlaylistRemove(n)] passes to [InputCmd]. *)
Definition PlaylistRemove_command (n : Z) : list value :=
  [VString "raw"; VString (PlaylistRemove_fragment n)].

(** The arguments of [Exec] in [GetRawProperty], [GetProperty],
    [GetFloatProperty] and [GetBoolProperty]. *)
Definition get_property_command (name : string) : list value :=
  [VString "get_property"; VString name].

(** The arguments of [Exec] in [SetProperty]. *)
Definition SetProperty_command (name : string) (v : value) : list value :=
  [VString "set_property"; VString name; v].

(** The arguments [Seek(n, mode)] passes to [InputCmd]; [strconv.Itoa]
    prints the digits [%d] prints. *)
Definition Seek_command (n : Z) (mode : string) : list value :=
  [VString "seek"; VString (fmt_d n); VString mode].

(** [InputCmd], after [Exec] returned [(res, err)]. *)
Definition InputCmd (res : option Response) (err : option error) : option error :=
  match res with
  | Some resp => Some (errors_New (Err resp))
  | None => err
  end.

(** [GetFloatProperty], after [Exec] returned [(res, err)]; a [float64] is
    given by its bits, [0] for the zero value. *)
Definition GetFloatProperty (res : option Response) (err : option error)
    : Z * option error :=
  match res with
  | None => (0, err)
  | Some res =>
      match Data res with
      | VFloat val => (val, err)
      | _ => (0, Some ErrInvalidType)
      end
  end.

(** [GetBoolProperty], after [Exec] returned [(res, err)]. *)
Definition GetBoolProperty (res : option Response) (err : option error)
    : bool * option error :=
  match res with
  | None => (false, err)
  | Some res =>
      match Data res with
      | VBool val => (val, err)
      | _ => (false, Some ErrInvalidType)
      end
  end.

(** ** Who holds a request

    A request is made by a caller, which keeps it until [Exec] returns;
    from the hand-off on, the write loop holds it too, and from its
    insertion until it is resolved, replaced or deleted, so does the
    table. *)

(** [req] is with the write loop or in the table. *)
Definition in_flight (s : System) (req : request) : Prop :=
  writer s = WGot req ∨
  (∃ b, writer s = WWrite req b) ∨
  (∃ r, writer s = WAfter req r) ∨
  (∃ id, reqMap (shared s) !! id = Some req).

(** [req] is held by a caller, by the write loop or by the table. *)
Definition holds (s : System) (req : request) : Prop :=
  (∃ i, callers s !! i = Some (AtSend req)) ∨
  (∃ i, callers s !! i = Some (AtRecv req)) ∨
  in_flight s req.

(** The request a caller holds, if any. *)
Definition caller_request (pc : exec_pc) : option request :=
  match pc with
  | AtSend req | AtRecv req => Some req
  | Returned _ _ | Panicked _ => None
  end.

Record ownership (s : System) : Prop := mkOwnership {
  own_alloc : ∀ req,
    holds s req → is_Some (chans (shared s) !! req_Response req);
  own_inj : ∀ req req',
    holds s req → holds s req' →
    req_Response req = req_Response req' → req = req';
  own_callers : ∀ i j pc pc' req req',
    callers s !! i = Some pc → callers s !! j = Some pc' →
    caller_request pc = Some req → caller_request pc' = Some req' →
    req_Response req = req_Response req' → i = j;
  own_send : ∀ i req req',
    callers s !! i = Some (AtSend req) → in_flight s req' →
    req_Response req ≠ req_Response req';
  own_reply : ∀ ch buf resp,
    chans (shared s) !! ch = Some buf → resp ∈ buf →
    Event resp = EmptyString ∧
    ∀ req, holds s req → req_Response req = ch →
           resp_RequestID resp = RequestID req
}.

(** A reply can still come to the channel [ch]: a request with this
    channel is waiting to be handed off, or is with the write loop before
    its write, or is in the table. *)
Definition may_deliver (s : System) (ch : chan) : Prop :=
  (∃ i req, callers s !! i = Some (AtSend req) ∧ req_Response req = ch) ∨
  (∃ req, writer s = WGot req ∧ req_Response req = ch) ∨
  (∃ req b, writer s = WWrite req b ∧ req_Response req = ch) ∨
  (∃ id req, reqMap (shared s) !! id = Some req ∧ req_Response req = ch).

(** The channel [ch] is empty and no reply can come to it any more. *)
Definition abandoned (s : System) (ch : chan) : Prop :=
  chans (shared s) !! ch = Some [] ∧ ¬ may_deliver s ch.

(** The request an entry of the log is about. *)
Definition obs_request (ev : obs) : request :=
  match ev with
  | EvInsert req => req
  | EvWrite req _ _ => req
  end.

(** ** Further sample states *)

(** After [Exec("get_property", "volume")] made its request, id 42. *)
Definition sys_called_42 : System :=
  {| shared := {| reqMap := ∅; event := ∅; chans := {[0%nat := []]};
                  conn := []; calls := [] |};
     writer := WIdle; reading := true;
     callers := [AtSend req_volume_42]; log := [] |}.

(** After the hand-off of that request to the write loop. *)
Definition sys_handed_42 : System :=
  {| shared := {| reqMap := ∅; event := ∅; chans := {[0%nat := []]};
                  conn := []; calls := [] |};
     writer := WGot req_volume_42; reading := true;
     callers := [AtRecv req_volume_42]; log := [] |}.

(** After the write of that request failed with nothing written. *)
Definition sys_write_failed_42 : System :=
  {| shared := {| reqMap := {[42 := req_volume_42]}; event := ∅;
                  chans := {[0%nat := []]}; conn := []; calls := [] |};
     writer := WAfter req_volume_42 (WriteErr 0 (ErrOther "write: broken pipe"));
     reading := true;
     callers := [AtRecv req_volume_42];
     log := [EvInsert req_volume_42;
             EvWrite req_volume_42 (json_volume_42 ++ [Byte.x0a])
               (WriteErr 0 (ErrOther "write: broken pipe"))] |}.

(** After [run_volume_42] and the dispatch of [reply_42]. *)
Definition sys_replied_42 : System :=
  {| shared := {| reqMap := ∅; event := ∅;
                  chans := {[0%nat := [reply_42]]};
                  conn := json_volume_42 ++ [Byte.x0a]; calls := [] |};
     writer := WIdle; reading := true;
     callers := [AtRecv req_volume_42];
     log := [EvInsert req_volume_42;
             EvWrite req_volume_42 (json_volume_42 ++ [Byte.x0a]) WriteOk] |}.

(** ** The connection and the callbacks, as records of what was done *)

(** The bytes an entry of the log put on the connection. *)
Definition written (ev : obs) : list Byte.byte :=
  match ev with
  | EvInsert _ => []
  | EvWrite _ b WriteOk => b
  | EvWrite _ b (WriteErr n _) => take n b
  end.


(** After the caller took [reply_42] from its channel and returned. *)
Definition sys_returned_42 : System :=
  {| shared := {| reqMap := ∅; event := ∅; chans := {[0%nat := []]};
                  conn := json_volume_42 ++ [Byte.x0a]; calls := [] |};
     writer := WIdle; reading := true;
     callers := [Returned (Some reply_42) None];
     log := [EvInsert req_volume_42;
             EvWrite req_volume_42 (json_volume_42 ++ [Byte.x0a]) WriteOk] |}.

(** The event mpv sends on a seek, an object with the one key [event],
    and what [json.Unmarshal] makes of it. *)
Definition data_seek : list Byte.byte :=
  list_byte_of_string
    ("{" ++ quoted "event" ++ ":" ++ quoted "seek" ++ "}" ++ newline)%string.

Definition event_seek : Response :=
  {| Err := EmptyString; Data := VNil; Event := "seek"; resp_RequestID := 0;
     Bytes := data_seek |}.

(** After the callback 7 was registered for [seek] and a seek event was
    read. *)
Definition sys_seek : System :=
  {| shared := {| reqMap := ∅; event := {["seek" := 7%nat]}; chans := ∅;
                  conn := []; calls := [(7%nat, event_seek)] |};
     writer := WIdle; reading := true; callers := []; log := [] |}.

(** * Properties *)

(** ** Basic facts about the state operations *)

Example fmt_d_samples :
  fmt_d 0 = "0" ∧ fmt_d 42 = "42" ∧ fmt_d 9999 = "9999" ∧ fmt_d (-7) = "-7".
Proof. by repeat split. Qed.

Lemma run_moves_app (tr1 tr2 : list action) (s : System) :
  run_moves (tr1 ++ tr2) s = run_moves tr1 s ≫= run_moves tr2.
Proof.
  revert s. induction tr1 as [|a tr1 IH]; intros s; simpl; [done|].
  destruct (step a s) as [s1|]; simpl; [apply IH|done].
Qed.

Lemma reachable_boot : reachable boot.
Proof. by exists []. Qed.

Lemma reachable_step (a : action) (s s' : System) :
  reachable s → step a s = Some s' → reachable s'.
Proof.
  intros [tr Htr] Hstep. exists (tr ++ [a]).
  rewrite run_moves_app, Htr. simpl. by rewrite Hstep.
Qed.

(** Induction over the runs of a client. *)
Lemma reachable_ind (P : System → Prop) :
  P boot →
  (∀ a s s', reachable s → P s → step a s = Some s' → P s') →
  ∀ s, reachable s → P s.
Proof.
  intros Hboot Hstep s [tr Htr]. revert s Htr.
  induction tr as [|a tr IH] using rev_ind; intros s Htr.
  - simpl in Htr. by simplify_eq.
  - rewrite run_moves_app in Htr.
    destruct (run_moves tr boot) as [s0|] eqn:E0; simpl in Htr; [|done].
    destruct (step a s0) as [s1|] eqn:E1; simpl in Htr; [|done].
    simplify_eq. eapply Hstep; [by exists tr | by apply IH | done].
Qed.

Lemma chan_send_empty (ch : chan) (v : Response) (c : State) :
  chans c !! ch = Some [] →
  chan_send ch v c = Some (set_chans (fun h => <[ch := [v]]> h) c).
Proof. intros H. unfold chan_send. by rewrite H. Qed.

Lemma chan_recv_empty (ch : chan) (c : State) :
  chans c !! ch = Some [] → chan_recv ch c = None.
Proof. intros H. unfold chan_recv. by rewrite H. Qed.

Lemma is_raw_spec (req : request) :
  is_raw req = true ↔
  ∃ rest, Command req = VString "raw" :: rest ∧ rest ≠ [].
Proof.
  unfold is_raw. destruct (Command req) as [|c0 [|c1 rest]]; simpl.
  - split; [done|]. by intros (? & ? & ?).
  - split; [done|]. intros (? & ? & ?). by simplify_eq.
  - destruct c0; simpl; try (split; [done|]; intros (? & ? & ?); by simplify_eq).
    split.
    + intros ->%String.eqb_eq. by eexists.
    + intros (? & ? & ?). simplify_eq. apply String.eqb_refl.
Qed.

(** What [newRequest] returns when it returns. *)
Lemma newRequest_returns (rnd : Z) (ch : chan) (cmd : list value) (req : request) :
  newRequest rnd ch cmd = Returns req →
  Command req = cmd ∧ RequestID req = rnd ∧ req_Response req = ch.
Proof.
  unfold newRequest. destruct (length cmd <? 2)%nat.
  - intros [= <-]. done.
  - destruct (index cmd 0) as [c0|]; simpl; [|done].
    destruct (assert_string c0) as [s0|]; simpl; [|done].
    destruct (String.eqb s0 "raw").
    + destruct (index cmd 1) as [c1|]; simpl; [|done].
      destruct (assert_string c1) as [s1|]; simpl; [|done].
      intros [= <-]. done.
    + intros [= <-]. done.
Qed.

Lemma lookup_snoc_Some {A} (l : list A) (x y : A) (i : nat) :
  (l ++ [x]) !! i = Some y → l !! i = Some y ∨ (i = length l ∧ y = x).
Proof.
  intros H. apply lookup_app_Some in H as [H|[Hle H]]; [by left|right].
  destruct (i - length l)%nat as [|n] eqn:E; simpl in H; [|done].
  split; [lia|congruence].
Qed.

Lemma lookup_insert_AtSend (l : list exec_pc) (i j : nat) (pc : exec_pc) (req : request) :
  <[i := pc]> l !! j = Some (AtSend req) →
  (∀ r, pc ≠ AtSend r) →
  l !! j = Some (AtSend req) ∧ i ≠ j.
Proof.
  intros H Hpc. apply list_lookup_insert_Some in H as [(-> & -> & _)|[? ?]].
  - by destruct (Hpc req).
  - done.
Qed.

Lemma invariant_boot : invariant boot.
Proof.
  split; simpl; try done.
Qed.

Lemma invariant_ACall (command : list value) (rnd : Z) (ch : chan) (s s' : System) :
  invariant s → step (ACall command rnd ch) s = Some s' → invariant s'.
Proof.
  intros I Hstep. simpl in Hstep.
  destruct (decide _) as [[Hrnd Hfresh]|]; [|done]. simplify_eq.
  assert (Hold : ∀ c buf, chans (shared s) !! c = Some buf → ch ≠ c)
    by (intros c buf Hc ->; congruence).
  assert (Hnew : ∀ req, AtSend req =
            match newRequest rnd ch command with
            | Returns r => AtSend r | Panics msg => Panicked msg end →
            req_Response req = ch ∧ RequestID req = rnd).
  { intros req. destruct (newRequest rnd ch command) as [r|] eqn:E; [|done].
    intros [= ->]. by apply newRequest_returns in E as (_ & ? & ?). }
  destruct I. split; simpl; try done.
  - intros id req Hid. rewrite lookup_insert_ne; eauto.
  - intros i req [Hi|[_ Hi]]%lookup_snoc_Some.
    + destruct (inv_send_slot0 _ _ Hi). rewrite lookup_insert_ne; eauto.
    + apply Hnew in Hi as [-> ->]. by rewrite lookup_insert_eq.
  - intros req Hw. destruct (inv_got_slot0 _ Hw). rewrite lookup_insert_ne; eauto.
  - intros i j req req' [Hi|[-> Hi]]%lookup_snoc_Some [Hj|[-> Hj]]%lookup_snoc_Some Heq;
      try done; eauto.
    + apply Hnew in Hj as [Hj _]. destruct (inv_send_slot0 _ _ Hi) as [Hs _].
      apply Hold in Hs. congruence.
    + apply Hnew in Hi as [Hi _]. destruct (inv_send_slot0 _ _ Hj) as [Hs _].
      apply Hold in Hs. congruence.
  - intros i req req' [Hi|[-> Hi]]%lookup_snoc_Some Hw; eauto.
    apply Hnew in Hi as [Hi _]. destruct (inv_got_slot0 _ Hw) as [Hs _].
    apply Hold in Hs. congruence.
  - intros i id req req' [Hi|[-> Hi]]%lookup_snoc_Some Hid; eauto.
    apply Hnew in Hi as [Hi _]. apply inv_pending_slot0 in Hid.
    apply Hold in Hid. congruence.
  - intros c buf [[<- <-]|[_ Hc]]%lookup_insert_Some; [|eauto].
    unfold reply_cap. simpl. lia.
Qed.

(** A caller found at its first [select] after caller [i] left it. *)
Ltac old_sender H :=
  apply lookup_insert_AtSend in H as [H ?]; [|done].

Lemma invariant_ASend (i : nat) (k : select_case) (s s' : System) :
  invariant s → step (ASend i k) s = Some s' → invariant s'.
Proof.
  intros I Hstep. simpl in Hstep.
  destruct (callers s !! i) as [[req| | |]|] eqn:Hi; try done.
  destruct I. destruct k; simpl in Hstep.
  - destruct (writer s) eqn:Hw; try done. simplify_eq.
    split; simpl; try done.
    + intros j r Hj. old_sender Hj. eauto.
    + intros r [= <-]. eauto.
    + intros j j' r r' Hj Hj'. old_sender Hj. old_sender Hj'. eauto.
    + intros j r r' Hj [= <-] Heq. old_sender Hj. eauto.
    + intros j id r r' Hj. old_sender Hj. eauto.
    + intros id r r' [= <-] Hid. eauto.
  - simplify_eq. split; simpl; try done.
    + intros j r Hj. old_sender Hj. eauto.
    + intros j j' r r' Hj Hj'. old_sender Hj. old_sender Hj'. eauto.
    + intros j r r' Hj. old_sender Hj. eauto.
    + intros j id r r' Hj. old_sender Hj. eauto.
Qed.

Lemma invariant_AMarshal (marshal : option (list Byte.byte)) (s s' : System) :
  invariant s → step (AMarshal marshal) s = Some s' → invariant s'.
Proof.
  intros I Hstep. simpl in Hstep.
  destruct (writer s) as [|req| |] eqn:Hw; try done.
  destruct I. destruct marshal as [b|]; simpl in Hstep; simplify_eq.
  - destruct (inv_got_slot0 _ Hw) as [Hslot Hrange].
    split; simpl; try done.
    + intros id r [[<- <-]|[_ Hid]]%lookup_insert_Some; eauto.
    + intros id r [[<- <-]|[_ Hid]]%lookup_insert_Some; eauto.
    + intros id id' r r' [[<- <-]|[_ Hid]]%lookup_insert_Some
        [[<- <-]|[_ Hid']]%lookup_insert_Some Heq; eauto.
      * by destruct (inv_got_pending0 _ _ _ Hw Hid').
      * symmetry in Heq. by destruct (inv_got_pending0 _ _ _ Hw Hid).
    + intros i id r r' Hi [[<- <-]|[_ Hid]]%lookup_insert_Some; eauto.
    + intros r b' [= <- _]. apply elem_of_app. right. by apply list_elem_of_singleton.
    + intros i r b' wr [Hi|[_ Hi]]%lookup_snoc_Some; [|done].
      destruct (inv_log0 _ _ _ _ Hi) as (j & Hj & Hlog).
      exists j. split; [done|]. by apply lookup_app_l_Some.
  - split; simpl; try done. by rewrite app_nil_r.
Qed.

Lemma invariant_AWrite (r : write_result) (s s' : System) :
  invariant s → step (AWrite r) s = Some s' → invariant s'.
Proof.
  intros I Hstep. simpl in Hstep.
  destruct (writer s) as [| |req b|] eqn:Hw; try done. simplify_eq.
  destruct I. specialize (inv_inserted0 _ _ Hw).
  split; simpl; try done; try by destruct r.
  intros i req' b' r' [Hi|[-> [= -> -> ->]]]%lookup_snoc_Some.
  - destruct (inv_log0 _ _ _ _ Hi) as (j & Hj & Hlog).
    exists j. split; [done|]. by apply lookup_app_l_Some.
  - apply list_elem_of_lookup in inv_inserted0 as [j Hj].
    exists j. split; [by eapply lookup_lt_Some|]. by apply lookup_app_l_Some.
Qed.

Lemma invariant_AAfter (s s' : System) :
  invariant s → step AAfter s = Some s' → invariant s'.
Proof.
  intros I Hstep. simpl in Hstep.
  destruct (writer s) as [| | |req r] eqn:Hw; try done. simplify_eq.
  destruct I. destruct r as [|n e]; simpl.
  - split; simpl; try done.
  - split; simpl; try done.
    + intros id r [_ Hid]%lookup_delete_Some; eauto.
    + intros id r [_ Hid]%lookup_delete_Some; eauto.
    + intros id id' r r' [_ Hid]%lookup_delete_Some [_ Hid']%lookup_delete_Some; eauto.
    + intros i id r r' Hi [_ Hid]%lookup_delete_Some; eauto.
Qed.

(** The three ways [dispatch] returns: nothing to do, a callback invoked,
    or a pending request resolved through its empty reply channel. *)
Lemma dispatch_Some (resp : Response) (c c' : State) :
  dispatch resp c = Some c' →
  c' = c ∨
  (∃ fn, event c !! Event resp = Some fn ∧
         c' = set_calls (fun l => l ++ [(fn, resp)]) c) ∨
  (∃ req, Event resp = EmptyString ∧
          reqMap c !! resp_RequestID resp = Some req ∧
          chans c !! req_Response req = Some [] ∧
          c' = set_chans (fun h => <[req_Response req := [resp]]> h)
                 (set_reqMap (fun m => delete (resp_RequestID resp) m) c)).
Proof.
  unfold dispatch. destruct (String.eqb (Event resp) EmptyString) eqn:Ev.
  - apply String.eqb_eq in Ev.
    destruct (reqMap c !! resp_RequestID resp) as [req|] eqn:Hid.
    + unfold chan_send. simpl.
      destruct (chans c !! req_Response req) as [[|v buf]|] eqn:Hch; simpl; try done.
      intros [= <-]. right. right. by exists req.
    + intros [= <-]. by left.
  - destruct (event c !! Event resp) as [fn|] eqn:Hfn.
    + intros [= <-]. right. left. by exists fn.
    + intros [= <-]. by left.
Qed.

Lemma invariant_ARead (r : read_result) (s s' : System) :
  invariant s → step (ARead r) s = Some s' → invariant s'.
Proof.
  intros I Hstep. simpl in Hstep.
  destruct (reading s) eqn:Hrd; [|done].
  destruct r as [e|data e|data resp]; simpl in Hstep; simplify_eq.
  - by destruct I.
  - by destruct I.
  - destruct (dispatch resp (shared s)) as [c'|] eqn:Hd; simpl in Hstep; [|done].
    simplify_eq.
    apply dispatch_Some in Hd as [->|[(fn & _ & ->)|(req & _ & Hid & Hslot & ->)]].
    + by destruct I.
    + by destruct I.
    + destruct I. split; simpl; try done.
      * intros id r [_ Hr]%lookup_delete_Some; eauto.
      * intros id r [Hne Hr]%lookup_delete_Some.
        rewrite lookup_insert_ne; eauto.
      * intros i r Hi. destruct (inv_send_slot0 _ _ Hi).
        rewrite lookup_insert_ne; [done|]. intros Heq.
        by destruct (inv_send_pending0 _ _ _ _ Hi Hid).
      * intros r Hw. destruct (inv_got_slot0 _ Hw).
        rewrite lookup_insert_ne; [done|]. intros Heq.
        by destruct (inv_got_pending0 _ _ _ Hw Hid).
      * intros id id' r r' [_ Hr]%lookup_delete_Some [_ Hr']%lookup_delete_Some; eauto.
      * intros i id r r' Hi [_ Hr]%lookup_delete_Some; eauto.
      * intros id r r' Hw [_ Hr]%lookup_delete_Some; eauto.
      * intros c buf [[<- <-]|[_ Hc]]%lookup_insert_Some; [done|eauto].
Qed.

Lemma invariant_ARecv (i : nat) (k : select_case) (s s' : System) :
  invariant s → step (ARecv i k) s = Some s' → invariant s'.
Proof.
  intros I Hstep. simpl in Hstep.
  destruct (callers s !! i) as [[|req| |]|] eqn:Hi; try done.
  destruct k; simpl in Hstep.
  - unfold chan_recv in Hstep.
    destruct (chans (shared s) !! req_Response req) as [[|v buf]|] eqn:Hch;
      simpl in Hstep; try done.
    simplify_eq.
    assert (Hne : ∀ c, chans (shared s) !! c = Some [] → req_Response req ≠ c)
      by (intros c Hc <-; congruence).
    destruct I. split; simpl; try done.
    + intros id r Hr. rewrite lookup_insert_ne; eauto.
    + intros j r Hj. old_sender Hj. destruct (inv_send_slot0 _ _ Hj).
      rewrite lookup_insert_ne; eauto.
    + intros r Hw. destruct (inv_got_slot0 _ Hw).
      rewrite lookup_insert_ne; eauto.
    + intros j j' r r' Hj Hj'. old_sender Hj. old_sender Hj'. eauto.
    + intros j r r' Hj. old_sender Hj. eauto.
    + intros j id r r' Hj. old_sender Hj. eauto.
    + intros c b [[<- <-]|[_ Hc]]%lookup_insert_Some; [|eauto].
      apply inv_cap0 in Hch. simpl in Hch. lia.
  - simplify_eq. destruct I. split; simpl; try done.
    + intros j r Hj. old_sender Hj. eauto.
    + intros j j' r r' Hj Hj'. old_sender Hj. old_sender Hj'. eauto.
    + intros j r r' Hj. old_sender Hj. eauto.
    + intros j id r r' Hj. old_sender Hj. eauto.
Qed.

Lemma invariant_step (a : action) (s s' : System) :
  invariant s → step a s = Some s' → invariant s'.
Proof.
  destruct a.
  - apply invariant_ACall.
  - apply invariant_ASend.
  - apply invariant_AMarshal.
  - apply invariant_AWrite.
  - apply invariant_AAfter.
  - apply invariant_ARead.
  - apply invariant_ARecv.
  - intros I [= <-]. by destruct I.
Qed.

(** The invariant holds at every point of every run. *)
Lemma reachable_invariant (s : System) : reachable s → invariant s.
Proof.
  apply reachable_ind.
  - apply invariant_boot.
  - intros a s0 s1 _. apply invariant_step.
Qed.


(** ** The raw escape *)

(** C5.  A command whose first element is the string ["raw"] and whose
    second element is a string [frag] is sent as [{], [frag],
    [,"request_id":], the id in decimal, [}] and a newline, whatever
    [json.Marshal] returned for it; for the [playlist-remove] fragment and
    id 42 these are the bytes of
    [{"command":["playlist-remove"],"index":5,"request_id":42}] and one
    newline. *)
Theorem C5_raw_record :
  (∀ (rnd : Z) (ch : chan) (frag : string) (rest : list value)
     (b : list Byte.byte) (c : State),
     ∃ req c',
       newRequest rnd ch (VString "raw" :: VString frag :: rest) = Returns req ∧
       writeloop_register req (Some b) c
         = (c', Some (list_byte_of_string
                        ("{" ++ frag ++ "," ++ quoted "request_id" ++ ":"
                         ++ fmt_d rnd ++ "}" ++ newline)%string)) ∧
       writeloop_body req (Some b) WriteOk c
         = Continue (set_conn
                       (fun w => w ++ list_byte_of_string
                          ("{" ++ frag ++ "," ++ quoted "request_id" ++ ":"
                           ++ fmt_d rnd ++ "}" ++ newline)%string) c')) ∧
  (∀ (ch : chan) (b : list Byte.byte),
     ∃ req,
       newRequest 42 ch [VString "raw"; VString fragment_playlist_remove_5]
         = Returns req ∧
       outbound req b = record_playlist_remove_5_42).
Proof.
  split.
  - intros rnd ch frag rest b c. eexists _, _. split; [reflexivity|].
    split; reflexivity.
  - intros ch b. eexists. split; reflexivity.
Qed.

(** ** Dispatch of replies *)

(** A reply for a pending request whose channel is empty: the entry is
    deleted, the reply is put in the channel, nothing else changes. *)
Lemma dispatch_resolves (resp : Response) (req : request) (c : State) :
  Event resp = EmptyString →
  reqMap c !! resp_RequestID resp = Some req →
  chans c !! req_Response req = Some [] →
  dispatch resp c
  = Some {| reqMap := delete (resp_RequestID resp) (reqMap c);
            event := event c;
            chans := <[req_Response req := [resp]]> (chans c);
            conn := conn c; calls := calls c |}.
Proof.
  intros Hev Hid Hslot. unfold dispatch. rewrite Hev, Hid. simpl.
  by erewrite chan_send_empty.
Qed.

(** A reply for an id that is not pending is dropped. *)
Lemma dispatch_miss (resp : Response) (c : State) :
  Event resp = EmptyString →
  reqMap c !! resp_RequestID resp = None →
  dispatch resp c = Some c.
Proof. intros Hev Hid. unfold dispatch. by rewrite Hev, Hid. Qed.

(** C7.  At any point of a run, the read loop dispatching a reply for a
    pending id deletes the id from the table and puts that reply, and only
    it, in the reply channel of the request; dispatching a further reply
    with the same id right after changes nothing at all. *)
Theorem C7_dispatch_at_most_once (s : System) (resp resp' : Response)
    (data data' : list Byte.byte) (req : request) :
  reachable s →
  Event resp = EmptyString →
  Event resp' = EmptyString →
  resp_RequestID resp' = resp_RequestID resp →
  reqMap (shared s) !! resp_RequestID resp = Some req →
  ∃ s1,
    step (ARead (Decoded data resp)) s = Some s1 ∧
    reqMap (shared s1) = delete (resp_RequestID resp) (reqMap (shared s)) ∧
    chans (shared s) !! req_Response req = Some [] ∧
    chans (shared s1) = <[req_Response req := [resp]]> (chans (shared s)) ∧
    event (shared s1) = event (shared s) ∧
    writer s1 = writer s ∧ callers s1 = callers s ∧
    step (ARead (Decoded data' resp')) s1 = Some s1.
Proof.
  intros Hs Hev Hev' Hsame Hid.
  pose proof (reachable_invariant _ Hs) as I.
  pose proof (inv_pending_slot _ I _ _ Hid) as Hslot.
  pose proof (dispatch_resolves _ _ _ Hev Hid Hslot) as Hd.
  eexists. split.
  { simpl. rewrite (inv_reading _ I). simpl. rewrite Hd. simpl. reflexivity. }
  simpl. repeat split; try done.
  rewrite dispatch_miss; simpl; try done.
  rewrite Hsame. apply lookup_delete_eq.
Qed.

(** C8.  A reply (empty event name) whose id is not in the table is
    dropped: [dispatch] returns, and the state it returns is the state it
    was given, so both tables, every reply channel and the connection are
    as before; the read loop goes on. *)
Theorem C8_unknown_reply_dropped (resp : Response) (data : list Byte.byte) (c : State) :
  Event resp = EmptyString →
  reqMap c !! resp_RequestID resp = None →
  dispatch resp c = Some c ∧
  readloop_body (Decoded data resp) c = Some (Continue c).
Proof.
  intros Hev Hid. pose proof (dispatch_miss _ _ Hev Hid) as Hd.
  split; [done|]. simpl. by rewrite Hd.
Qed.

(** ** Malformed records and read errors *)

(** C9.  At any point of a run, a record on which [json.Unmarshal] fails
    is dropped: the iteration of the read loop ends in [continue] with the
    state untouched, the loop goes on with the records that follow, and
    nothing in the client (tables, reply channels, callers, write loop)
    has changed. *)
Theorem C9_decode_error_dropped (s : System) (data : list Byte.byte) (e : error)
    (rs : list read_result) :
  reachable s →
  readloop_body (DecodeErr data e) (shared s) = Some (Continue (shared s)) ∧
  readloop (DecodeErr data e :: rs) (shared s) = readloop rs (shared s) ∧
  step (ARead (DecodeErr data e)) s = Some s.
Proof.
  intros I%reachable_invariant. repeat split.
  pose proof (inv_reading _ I) as Hrd.
  destruct s; simpl in *. by subst.
Qed.

(** ** The type assertion in [newRequest] *)

(** C10.  With two or more arguments of which the first is not a string,
    [newRequest] panics, and so does [Exec], which calls it first; put the
    other way round, if [newRequest] returns for two or more arguments,
    the first is a string. *)
Theorem C10_non_string_verb_panics (rnd : Z) (ch : chan) (command : list value)
    (c : State) :
  (2 ≤ length command)%nat →
  ((∀ v, command !! 0%nat = Some (VString v) → False) →
   ∃ msg, newRequest rnd ch command = Panics msg ∧
          (Exec_enter rnd ch command c).2 = Panicked msg) ∧
  (∀ req, newRequest rnd ch command = Returns req →
          ∃ v, command !! 0%nat = Some (VString v)).
Proof.
  intros Hlen. destruct command as [|c0 [|c1 rest]]; simpl in Hlen; try lia.
  split.
  - intros Hns. unfold Exec_enter, newRequest. simpl.
    destruct c0; simpl; try by eexists.
    by destruct (Hns s).
  - intros req. unfold newRequest. simpl.
    destruct c0; simpl; try done. by eexists.
Qed.

Lemma reachable_sys_volume_42 : reachable sys_volume_42.
Proof. exists run_volume_42. vm_compute. reflexivity. Qed.

(** ** Receive timeout *)

(** No move of [Exec] touches the table of pending requests. *)
Lemma Exec_keeps_reqMap (a : action) (s s' : System) :
  is_Exec_move a = true → step a s = Some s' →
  reqMap (shared s') = reqMap (shared s).
Proof.
  destruct a as [command rnd ch|i k| | | | |i k|]; try done; intros _; simpl.
  - destruct (decide _); [|done]. by intros [= <-].
  - destruct (callers s !! i) as [[req| | |]|]; try done.
    destruct (Exec_send req k (writer s)) as [[w pc]|]; [|done].
    by intros [= <-].
  - destruct (callers s !! i) as [[|req| |]|]; try done.
    destruct k; simpl.
    + unfold chan_recv.
      destruct (chans (shared s) !! req_Response req) as [[|v buf]|]; try done.
      by intros [= <-].
    + by intros [= <-].
Qed.

(** C1, amended.  A call of [Exec] waiting for its reply, with nothing in
    its reply channel, can only leave through the timer: it returns
    [ErrTimeoutRecv], and the shared state (the table of pending requests
    included) is what it was; more generally no move of any call of [Exec]
    changes the table. *)
Theorem C1_recv_timeout (s : System) (i : nat) (req : request) :
  callers s !! i = Some (AtRecv req) →
  chans (shared s) !! req_Response req = Some [] →
  step (ARecv i CaseChan) s = None ∧
  (∃ s', step (ARecv i CaseTimer) s = Some s' ∧
         callers s' !! i = Some (Returned None (Some ErrTimeoutRecv)) ∧
         shared s' = shared s ∧ writer s' = writer s) ∧
  (∀ a s0 s1, is_Exec_move a = true → step a s0 = Some s1 →
              reqMap (shared s1) = reqMap (shared s0)).
Proof.
  intros Hi Hslot. split; [|split].
  - simpl. rewrite Hi. simpl. by rewrite (chan_recv_empty _ _ Hslot).
  - simpl. rewrite Hi. simpl. eexists. split; [reflexivity|]. simpl.
    split; [|done]. apply list_lookup_insert_eq. by eapply lookup_lt_Some.
  - apply Exec_keeps_reqMap.
Qed.

(** ** Write errors *)


(** ** Read errors *)

(** C3, amended.  At any point of a run, an error of [rd.ReadBytes] ends
    the iteration of the read loop in [continue]: the loop is still
    running and reads again, and nothing in the client has changed, so no
    pending request is resolved; a caller waiting for a reply can still
    leave through its own timer, with [ErrTimeoutRecv]. *)
Theorem C3_read_error_ignored (s : System) (e : error) (rs : list read_result) :
  reachable s →
  readloop_body (ReadErr e) (shared s) = Some (Continue (shared s)) ∧
  readloop (ReadErr e :: rs) (shared s) = readloop rs (shared s) ∧
  step (ARead (ReadErr e)) s = Some s ∧
  reading s = true ∧
  (∀ i req, callers s !! i = Some (AtRecv req) →
     ∃ s', step (ARecv i CaseTimer) s = Some s' ∧
           callers s' !! i = Some (Returned None (Some ErrTimeoutRecv)) ∧
           shared s' = shared s).
Proof.
  intros I%reachable_invariant.
  pose proof (inv_reading _ I) as Hrd. repeat split; try done.
  - destruct s; simpl in *. by subst.
  - intros i req Hi. simpl. rewrite Hi. simpl. eexists. split; [reflexivity|].
    simpl. split; [|done]. apply list_lookup_insert_eq. by eapply lookup_lt_Some.
Qed.

(** ** Correlation ids *)

(** C4, amended.  The id of a request is the number drawn by
    [rand.Intn(10000)], whatever the table holds: every pending id lies in
    the range of the generator, and a call of [Exec] drawing a pending id
    goes ahead with a request carrying that id, the table unchanged. *)
Theorem C4_id_drawn_blind (s : System) (id : Z) (pending : request) (ch : chan)
    (command : list value) :
  reachable s →
  reqMap (shared s) !! id = Some pending →
  chans (shared s) !! ch = None →
  Intn_range 10000 id ∧
  (∀ req, newRequest id ch command = Returns req →
     RequestID req = id ∧
     ∃ s', step (ACall command id ch) s = Some s' ∧
           callers s' = callers s ++ [AtSend req] ∧
           reqMap (shared s') = reqMap (shared s)).
Proof.
  intros I%reachable_invariant Hid Hch.
  destruct (inv_key _ I _ _ Hid) as [_ Hrange]. split; [done|].
  intros req Hreq. split; [by apply newRequest_returns in Hreq as (_ & ? & _)|].
  simpl. rewrite decide_True by done. unfold Exec_enter. rewrite Hreq.
  by eexists.
Qed.

(** ** Insertion before the write *)

(** The log records the insertions and the writes as they are made. *)
Lemma step_log (a : action) (s s' : System) :
  step a s = Some s' →
  (log s' = log s ∧ conn (shared s') = conn (shared s) ∧
   (∀ id req, reqMap (shared s') !! id = Some req →
              reqMap (shared s) !! id = Some req)) ∨
  (∃ req b, writer s = WGot req ∧ a = AMarshal (Some b) ∧
            log s' = log s ++ [EvInsert req] ∧
            conn (shared s') = conn (shared s) ∧
            reqMap (shared s') = <[RequestID req := req]> (reqMap (shared s))) ∨
  (∃ req b r, writer s = WWrite req b ∧ a = AWrite r ∧
              log s' = log s ++ [EvWrite req b r] ∧
              shared s' = conn_Write b r (shared s)).
Proof.
  destruct a as [command rnd ch|i k|m|r| |r|i k|name fn]; simpl.
  - destruct (decide _); [|done]. intros [= <-]. by left.
  - destruct (callers s !! i) as [[req| | |]|]; try done.
    destruct (Exec_send req k (writer s)) as [[w pc]|]; [|done].
    intros [= <-]. by left.
  - destruct (writer s) as [|req| |]; try done.
    destruct m as [b|]; simpl; intros [= <-]; simpl.
    + right. left. by exists req, b.
    + left. by rewrite app_nil_r.
  - destruct (writer s) as [| |req b|]; try done.
    intros [= <-]. right. right. by exists req, b, r.
  - destruct (writer s) as [| | |req r]; try done.
    intros [= <-]. left. destruct r; simpl; [done|].
    repeat split. by intros id r [_ ?]%lookup_delete_Some.
  - destruct (reading s); [|done].
    destruct (readloop_body r (shared s)) as [[c|c]|] eqn:Hb; try done;
      intros [= <-]; left; simpl.
    + destruct r as [e|data e|data resp]; simpl in Hb; simplify_eq; [done..|].
      destruct (dispatch resp (shared s)) as [c'|] eqn:Hd; simpl in Hb; [|done].
      simplify_eq.
      apply dispatch_Some in Hd as [->|[(fn & _ & ->)|(req & _ & _ & _ & ->)]];
        simpl; try done.
      repeat split. by intros id r [_ ?]%lookup_delete_Some.
    + destruct r as [e|data e|data resp]; simpl in Hb; simplify_eq.
      by destruct (dispatch resp (shared s)).
  - destruct (callers s !! i) as [[|req| |]|]; try done.
    destruct k; simpl.
    + unfold chan_recv.
      destruct (chans (shared s) !! req_Response req) as [[|v buf]|]; try done.
      intros [= <-]. by left.
    + intros [= <-]. by left.
  - intros [= <-]. by left.
Qed.


(** ** The properties on the sample runs *)

(** Against C1 as stated: after a request was written and no reply came,
    [Exec] returns [ErrTimeoutRecv] and the id of the request is still in
    the table. *)
Lemma C1_entry_survives_timeout :
  ∃ s, run_moves (run_volume_42 ++ [ARecv 0 CaseTimer]) boot = Some s ∧
       callers s !! 0%nat = Some (Returned None (Some ErrTimeoutRecv)) ∧
       chans (shared s) !! 0%nat = Some [] ∧
       reqMap (shared s) !! 42 = Some req_volume_42.
Proof. eexists. split; [vm_compute; reflexivity|]. by repeat split. Qed.

Lemma C1_witness :
  step (ARecv 0 CaseChan) sys_volume_42 = None ∧
  ∃ s', step (ARecv 0 CaseTimer) sys_volume_42 = Some s' ∧
        callers s' !! 0%nat = Some (Returned None (Some ErrTimeoutRecv)) ∧
        shared s' = shared sys_volume_42.
Proof.
  destruct (C1_recv_timeout sys_volume_42 0 req_volume_42)
    as (Hchan & (s' & Hstep & Hret & Hshared & _) & _);
    [reflexivity | reflexivity |].
  split; [exact Hchan|]. exists s'. repeat split; assumption.
Defined.



(** Against C3 as stated: with request 42 pending and its caller waiting,
    a read error leaves the read loop running, the request pending, and
    its reply channel empty. *)
Lemma C3_read_error_resolves_nothing :
  run_moves run_volume_42 boot = Some sys_volume_42 ∧
  step (ARead (ReadErr (ErrOther "EOF"))) sys_volume_42 = Some sys_volume_42 ∧
  readloop_body (ReadErr (ErrOther "EOF")) (shared sys_volume_42)
  = Some (Continue (shared sys_volume_42)) ∧
  reading sys_volume_42 = true ∧
  callers sys_volume_42 !! 0%nat = Some (AtRecv req_volume_42) ∧
  reqMap (shared sys_volume_42) !! 42 = Some req_volume_42 ∧
  chans (shared sys_volume_42) !! 0%nat = Some [].
Proof. split; [vm_compute; reflexivity|]. by repeat split. Qed.

Lemma C3_witness :
  step (ARead (ReadErr (ErrOther "EOF"))) sys_volume_42 = Some sys_volume_42 ∧
  reading sys_volume_42 = true.
Proof.
  destruct (C3_read_error_ignored sys_volume_42 (ErrOther "EOF") [])
    as (_ & _ & Hstep & Hrd & _); [apply reachable_sys_volume_42|].
  split; assumption.
Defined.

(** Against C4 as stated: while request 42 is pending, a second call draws
    42 again; its request replaces the first in the table, and the reply
    that then comes for 42 goes to the second caller, the first one's
    channel staying empty. *)
Lemma C4_pending_id_drawn_again :
  ∃ s s',
    run_moves run_volume_42 boot = Some s ∧
    reqMap (shared s) !! 42 = Some req_volume_42 ∧
    Intn_range 10000 42 ∧
    newRequest 42 1%nat cmd_pause = Returns req_pause_42 ∧
    RequestID req_pause_42 = RequestID req_volume_42 ∧
    run_moves (run_pause_42 ++ [ARead (Decoded data_reply_42 reply_42)]) s = Some s' ∧
    chans (shared s') !! 0%nat = Some [] ∧
    chans (shared s') !! 1%nat = Some [reply_42].
Proof.
  exists sys_volume_42. eexists.
  split; [vm_compute; reflexivity|].
  split; [reflexivity|]. split; [by unfold Intn_range|].
  split; [reflexivity|]. split; [reflexivity|].
  split; [vm_compute; reflexivity|]. by split.
Qed.

Lemma C4_witness :
  Intn_range 10000 42 ∧
  ∃ s', step (ACall cmd_pause 42 1%nat) sys_volume_42 = Some s' ∧
        callers s' = callers sys_volume_42 ++ [AtSend req_pause_42].
Proof.
  destruct (C4_id_drawn_blind sys_volume_42 42 req_volume_42 1%nat cmd_pause)
    as (Hrange & Hcall);
    [apply reachable_sys_volume_42 | reflexivity | reflexivity |].
  split; [exact Hrange|].
  destruct (Hcall req_pause_42) as (_ & s' & Hstep & Hcallers & _); [reflexivity|].
  exists s'. split; assumption.
Defined.


Lemma C7_witness :
  ∃ s1, step (ARead (Decoded data_reply_42 reply_42)) sys_volume_42 = Some s1 ∧
        chans (shared s1) = <[0%nat := [reply_42]]> (chans (shared sys_volume_42)) ∧
        step (ARead (Decoded data_reply_42 reply_42)) s1 = Some s1.
Proof.
  destruct (C7_dispatch_at_most_once sys_volume_42 reply_42 reply_42
              data_reply_42 data_reply_42 req_volume_42)
    as (s1 & Hstep & _ & _ & Hchans & _ & _ & _ & Hagain);
    [apply reachable_sys_volume_42 | reflexivity..|].
  exists s1. repeat split; assumption.
Defined.

Lemma C8_witness :
  dispatch reply_42 NewIPCClient = Some NewIPCClient ∧
  readloop_body (Decoded data_reply_42 reply_42) NewIPCClient
  = Some (Continue NewIPCClient).
Proof.
  apply (C8_unknown_reply_dropped reply_42 data_reply_42 NewIPCClient);
    reflexivity.
Defined.

Lemma C9_witness :
  step (ARead (DecodeErr (list_byte_of_string "not json")
                 (ErrOther "invalid character")))
       sys_volume_42 = Some sys_volume_42.
Proof.
  destruct (C9_decode_error_dropped sys_volume_42
              (list_byte_of_string "not json") (ErrOther "invalid character") [])
    as (_ & _ & Hstep); [apply reachable_sys_volume_42|].
  exact Hstep.
Defined.

Lemma C10_witness :
  ∃ msg, newRequest 42 0%nat [VInt 5; VString "volume"] = Panics msg ∧
         (Exec_enter 42 0%nat [VInt 5; VString "volume"] NewIPCClient).2 = Panicked msg.
Proof.
  destruct (C10_non_string_verb_panics 42 0%nat [VInt 5; VString "volume"] NewIPCClient)
    as (Hpanic & _); [simpl; lia|].
  apply Hpanic. intros v Hv. discriminate Hv.
Defined.

(** * Further properties of the transport and of its callers *)

(** ** When [newRequest] panics *)

(** X1.  [newRequest] panics exactly when it is given two or more
    arguments and either the first is not a string, or the first is the
    string ["raw"] and the second is not a string; in every other case it
    returns. *)
Theorem newRequest_panics_iff (rnd : Z) (ch : chan) (cmd : list value) :
  (∃ msg, newRequest rnd ch cmd = Panics msg) ↔
  (2 ≤ length cmd)%nat ∧
  ((∀ v, cmd !! 0%nat ≠ Some (VString v)) ∨
   (cmd !! 0%nat = Some (VString "raw") ∧ ∀ v, cmd !! 1%nat ≠ Some (VString v))).
Proof.
  unfold newRequest. destruct cmd as [|c0 [|c1 rest]]; simpl.
  - split; [by intros [? ?]|]. intros [? _]. lia.
  - split; [by intros [? ?]|]. intros [? _]. lia.
  - split.
    + intros [msg Hp]. split; [lia|].
      destruct c0 as [| | | |s0|]; simpl in Hp; try (left; by intros v [=]).
      destruct (String.eqb s0 "raw") eqn:E; [|done].
      apply String.eqb_eq in E as ->. right. split; [done|].
      destruct c1; simpl in Hp; try done; by intros v [=].
    + intros [_ [Hns|[[= ->] Hns]]].
      * destruct c0; simpl; try by eexists. by destruct (Hns s).
      * simpl. destruct c1; simpl; try by eexists. by destruct (Hns s).
Qed.

(** ** Framing of the outbound records *)

Lemma list_byte_of_string_app (s t : string) :
  list_byte_of_string (s ++ t) = list_byte_of_string s ++ list_byte_of_string t.
Proof.
  unfold list_byte_of_string. induction s as [|a s IH]; simpl; [done|].
  by rewrite IH.
Qed.

Lemma string_app_assoc (s t u : string) :
  ((s ++ t) ++ u = s ++ (t ++ u))%string.
Proof.
  induction s as [|a s IH]; [done|].
  change (String a ((s ++ t) ++ u) = String a (s ++ (t ++ u)))%string.
  by rewrite IH.
Qed.

(** X2.  Whatever the request and whatever [json.Marshal] returned, the
    bytes handed to [conn.Write] end with a newline; for a request that is
    not of the raw form they are the marshalled bytes followed by that one
    newline, and for a request of the raw form they do not depend on the
    marshalled bytes. *)
Theorem outbound_newline_terminated (req : request) (b : list Byte.byte) :
  (∃ body, outbound req b = body ++ [Byte.x0a]) ∧
  (is_raw req = false → outbound req b = b ++ [Byte.x0a]) ∧
  (is_raw req = true → ∀ b', outbound req b' = outbound req b).
Proof.
  unfold outbound. destruct (is_raw req); repeat split; try done.
  - unfold sprintf_raw. rewrite <- !string_app_assoc.
    rewrite list_byte_of_string_app. by eexists.
  - by eexists.
Qed.

(** ** The record of [PlaylistRemove] *)

(** X3.  For every index [n] and every id drawn, the request that
    [PlaylistRemove(n)] makes is accepted by [newRequest], and the record
    the write loop puts on the connection for it is the object with the
    keys [command] (the array holding [playlist-remove]), [index] ([n] in
    decimal) and [request_id] (the id in decimal), in this order, and a
    newline. *)
Theorem PlaylistRemove_record (n rnd : Z) (ch : chan) (b : list Byte.byte)
    (c : State) :
  ∃ req,
    newRequest rnd ch (PlaylistRemove_command n) = Returns req ∧
    conn (match writeloop_body req (Some b) WriteOk c with
          | Continue c' | Break c' => c' end)
    = conn c ++
      list_byte_of_string
        ("{" ++ quoted "command" ++ ":[" ++ quoted "playlist-remove" ++ "],"
         ++ quoted "index" ++ ":" ++ fmt_d n ++ "," ++ quoted "request_id" ++ ":"
         ++ fmt_d rnd ++ "}" ++ newline)%string.
Proof.
  eexists. split; [reflexivity|]. simpl. by f_equal.
Qed.

(** ** Where requests come from *)

(** A caller at its first [select] was there before, or has just been
    made by a call of [Exec] with a fresh channel. *)
Lemma AtSend_step (a : action) (s s' : System) (i : nat) (req : request) :
  step a s = Some s' →
  callers s' !! i = Some (AtSend req) →
  callers s !! i = Some (AtSend req) ∨
  (∃ command rnd ch,
     a = ACall command rnd ch ∧ i = length (callers s) ∧
     chans (shared s) !! ch = None ∧
     newRequest rnd ch command = Returns req).
Proof.
  destruct a as [command rnd ch|j k|m|r| |r|j k|name fn]; simpl.
  - destruct (decide _) as [[_ Hfresh]|]; [|done]. intros [= <-]; simpl.
    intros [Hi|[-> Hi]]%lookup_snoc_Some; [by left|]. right.
    exists command, rnd, ch. repeat split; try done.
    by destruct (newRequest rnd ch command); simplify_eq.
  - destruct (callers s !! j) as [[rq| | |]|] eqn:Hj; try done.
    destruct (Exec_send rq k (writer s)) as [[w pc]|] eqn:Hs; [|done].
    intros [= <-]; simpl. intros Hi. left.
    apply list_lookup_insert_Some in Hi as [(-> & -> & _)|[_ Hi]]; [|done].
    destruct k; simpl in Hs; [destruct (writer s)|]; by simplify_eq.
  - destruct (writer s); try done.
    destruct (writeloop_register _ _ _). intros [= <-]. by left.
  - destruct (writer s); try done. intros [= <-]. by left.
  - destruct (writer s); try done. intros [= <-]. by left.
  - destruct (reading s); [|done].
    destruct (readloop_body r (shared s)) as [[c|c]|]; try done;
      intros [= <-]; by left.
  - destruct (callers s !! j) as [[|rq| |]|] eqn:Hj; try done.
    destruct (Exec_recv rq k (shared s)) as [[c pc]|] eqn:Hr; [|done].
    intros [= <-]; simpl. intros Hi. left.
    apply list_lookup_insert_Some in Hi as [(-> & -> & _)|[_ Hi]]; [|done].
    destruct k; simpl in Hr; [|by simplify_eq].
    destruct (chan_recv _ _) as [[? ?]|]; by simplify_eq.
  - intros [= <-]. by left.
Qed.

(** A caller at its second [select] was there before, or has just handed
    its request to the write loop. *)
Lemma AtRecv_step (a : action) (s s' : System) (i : nat) (req : request) :
  step a s = Some s' →
  callers s' !! i = Some (AtRecv req) →
  callers s !! i = Some (AtRecv req) ∨
  (a = ASend i CaseChan ∧ callers s !! i = Some (AtSend req) ∧
   writer s = WIdle ∧ writer s' = WGot req).
Proof.
  destruct a as [command rnd ch|j k|m|r| |r|j k|name fn]; simpl.
  - destruct (decide _) as [[_ Hfresh]|]; [|done]. intros [= <-]; simpl.
    intros [Hi|[-> Hi]]%lookup_snoc_Some; [by left|].
    by destruct (newRequest rnd ch command).
  - destruct (callers s !! j) as [[rq| | |]|] eqn:Hj; try done.
    destruct (Exec_send rq k (writer s)) as [[w pc]|] eqn:Hs; [|done].
    intros [= <-]; simpl. intros Hi.
    apply list_lookup_insert_Some in Hi as [(-> & -> & _)|[_ Hi]]; [|by left].
    right. destruct k; simpl in Hs; [|by simplify_eq].
    destruct (writer s); by simplify_eq.
  - destruct (writer s); try done.
    destruct (writeloop_register _ _ _). intros [= <-]. by left.
  - destruct (writer s); try done. intros [= <-]. by left.
  - destruct (writer s); try done. intros [= <-]. by left.
  - destruct (reading s); [|done].
    destruct (readloop_body r (shared s)) as [[c|c]|]; try done;
      intros [= <-]; by left.
  - destruct (callers s !! j) as [[|rq| |]|] eqn:Hj; try done.
    destruct (Exec_recv rq k (shared s)) as [[c pc]|] eqn:Hr; [|done].
    intros [= <-]; simpl. intros Hi. left.
    apply list_lookup_insert_Some in Hi as [(-> & -> & _)|[_ Hi]]; [|done].
    destruct k; simpl in Hr; [|by simplify_eq].
    destruct (chan_recv _ _) as [[? ?]|]; by simplify_eq.
  - intros [= <-]. by left.
Qed.

(** A request with the write loop or in the table was there before, or
    has just been handed off by its caller. *)
Lemma in_flight_step (a : action) (s s' : System) (req : request) :
  step a s = Some s' →
  in_flight s' req →
  in_flight s req ∨
  (∃ i, a = ASend i CaseChan ∧ callers s !! i = Some (AtSend req)).
Proof.
  unfold in_flight.
  destruct a as [command rnd ch|j k|m|r| |r|j k|name fn]; simpl.
  - destruct (decide _); [|done]. intros [= <-]; simpl. by left.
  - destruct (callers s !! j) as [[rq| | |]|] eqn:Hj; try done.
    destruct k; simpl.
    + destruct (writer s) eqn:Hw; try done. intros [= <-]; simpl.
      intros [[= <-]|[[? [=]]|[[? [=]]|?]]]; [right; by exists j|].
      left. by right; right; right.
    + intros [= <-]; simpl. by left.
  - destruct (writer s) as [|rq| |] eqn:Hw; try done.
    destruct m as [b|]; simpl; intros [= <-]; simpl.
    + intros [[=]|[[? [= <- _]]|[[? [=]]|[id Hid]]]]; left; [by left|].
      apply lookup_insert_Some in Hid as [[_ <-]|[_ Hid]]; [by left|].
      right; right; right. by exists id.
    + intros [[=]|[[? [=]]|[[? [=]]|?]]]. left. by right; right; right.
  - destruct (writer s) as [| |rq b|] eqn:Hw; try done. intros [= <-]; simpl.
    intros [[=]|[[? [=]]|[[? [= <- _]]|[id Hid]]]]; left.
    + right; left. by exists b.
    + right; right; right. exists id. by destruct r.
  - destruct (writer s) as [| | |rq wr] eqn:Hw; try done. intros [= <-]; simpl.
    intros [[=]|[[? [=]]|[[? [=]]|[id Hid]]]]. left. right; right; right.
    exists id. destruct wr; simpl in Hid; [done|].
    by apply lookup_delete_Some in Hid as [_ ?].
  - destruct (reading s); [|done].
    destruct (readloop_body r (shared s)) as [[c|c]|] eqn:Hb; try done;
      intros [= <-]; simpl; intros Hf; left.
    + destruct r as [e|data e|data resp]; simpl in Hb; simplify_eq; [done..|].
      destruct (dispatch resp (shared s)) as [c'|] eqn:Hd; simpl in Hb; [|done].
      simplify_eq.
      apply dispatch_Some in Hd as [->|[(fn & _ & ->)|(rq & _ & _ & _ & ->)]];
        simpl in Hf; try done.
      destruct Hf as [?|[?|[?|[id Hid]]]]; [by left|by right; left|
        by right; right; left|].
      right; right; right. exists id.
      by apply lookup_delete_Some in Hid as [_ ?].
    + destruct r as [e|data e|data resp]; simpl in Hb; simplify_eq.
      by destruct (dispatch resp (shared s)).
  - destruct (callers s !! j) as [[|rq| |]|] eqn:Hj; try done.
    destruct k; simpl.
    + unfold chan_recv.
      destruct (chans (shared s) !! req_Response rq) as [[|v buf]|]; try done.
      intros [= <-]; simpl. by left.
    + intros [= <-]; simpl. by left.
  - intros [= <-]; simpl. by left.
Qed.

(** How the content of a channel came about in one move: it was there, or
    the channel has just been made, or a reply has just been put in the
    empty channel of a pending request, or the caller has just taken the
    first reply out. *)
Lemma chans_step (a : action) (s s' : System) (ch : chan) (buf : list Response) :
  step a s = Some s' →
  chans (shared s') !! ch = Some buf →
  chans (shared s) !! ch = Some buf ∨
  (chans (shared s) !! ch = None ∧ buf = [] ∧
   ∃ command rnd, a = ACall command rnd ch) ∨
  (∃ data resp req,
     a = ARead (Decoded data resp) ∧ Event resp = EmptyString ∧
     reqMap (shared s) !! resp_RequestID resp = Some req ∧
     req_Response req = ch ∧
     chans (shared s) !! ch = Some [] ∧ buf = [resp]) ∨
  (∃ i req v,
     a = ARecv i CaseChan ∧ callers s !! i = Some (AtRecv req) ∧
     req_Response req = ch ∧ chans (shared s) !! ch = Some (v :: buf)).
Proof.
  destruct a as [command rnd c0|j k|m|r| |r|j k|name fn]; simpl.
  - destruct (decide _) as [[_ Hfresh]|]; [|done]. intros [= <-]; simpl.
    intros [[<- <-]|[_ Hc]]%lookup_insert_Some; [|by left].
    right; left. repeat split; try done. by exists command, rnd.
  - destruct (callers s !! j) as [[rq| | |]|]; try done.
    destruct (Exec_send rq k (writer s)) as [[w pc]|]; [|done].
    intros [= <-]. by left.
  - destruct (writer s); try done. destruct m; intros [= <-]; by left.
  - destruct (writer s); try done. intros [= <-]. destruct r; by left.
  - destruct (writer s) as [| | |rq wr]; try done. intros [= <-].
    destruct wr; by left.
  - destruct (reading s); [|done].
    destruct (readloop_body r (shared s)) as [[c|c]|] eqn:Hb; try done;
      intros [= <-]; simpl; intros Hc.
    + destruct r as [e|data e|data resp]; simpl in Hb; simplify_eq;
        [by left..|].
      destruct (dispatch resp (shared s)) as [c'|] eqn:Hd; simpl in Hb; [|done].
      simplify_eq.
      apply dispatch_Some in Hd as [->|[(fn & _ & ->)|(rq & Hev & Hid & Hslot & ->)]];
        simpl in Hc; [by left..|].
      apply lookup_insert_Some in Hc as [[<- <-]|[_ Hc]]; [|by left].
      right; right; left. by exists data, resp, rq.
    + destruct r as [e|data e|data resp]; simpl in Hb; simplify_eq.
      by destruct (dispatch resp (shared s)).
  - destruct (callers s !! j) as [[|rq| |]|] eqn:Hj; try done.
    destruct k; simpl.
    + unfold chan_recv.
      destruct (chans (shared s) !! req_Response rq) as [[|v rest]|] eqn:Hrq;
        try done.
      intros [= <-]; simpl.
      intros [[<- <-]|[_ Hc]]%lookup_insert_Some; [|by left].
      right; right; right. by exists j, rq, v.
    + intros [= <-]. by left.
  - intros [= <-]. by left.
Qed.

(** A channel, once made, stays. *)
Lemma chans_alloc_step (a : action) (s s' : System) (ch : chan) :
  step a s = Some s' →
  is_Some (chans (shared s) !! ch) → is_Some (chans (shared s') !! ch).
Proof.
  destruct a as [command rnd c0|j k|m|r| |r|j k|name fn]; simpl.
  - destruct (decide _); [|done]. intros [= <-]; simpl.
    intros Hc. rewrite lookup_insert. by case_decide.
  - destruct (callers s !! j) as [[rq| | |]|]; try done.
    destruct (Exec_send rq k (writer s)) as [[w pc]|]; [|done].
    by intros [= <-].
  - destruct (writer s); try done. by destruct m; intros [= <-].
  - destruct (writer s); try done. intros [= <-]. by destruct r.
  - destruct (writer s) as [| | |rq wr]; try done. intros [= <-].
    by destruct wr.
  - destruct (reading s); [|done].
    destruct (readloop_body r (shared s)) as [[c|c]|] eqn:Hb; try done;
      intros [= <-]; simpl; intros Hc.
    + destruct r as [e|data e|data resp]; simpl in Hb; simplify_eq; [done..|].
      destruct (dispatch resp (shared s)) as [c'|] eqn:Hd; simpl in Hb; [|done].
      simplify_eq.
      apply dispatch_Some in Hd as [->|[(fn & _ & ->)|(rq & _ & _ & _ & ->)]];
        simpl; try done.
      rewrite lookup_insert. by case_decide.
    + destruct r as [e|data e|data resp]; simpl in Hb; simplify_eq.
      by destruct (dispatch resp (shared s)).
  - destruct (callers s !! j) as [[|rq| |]|] eqn:Hj; try done.
    destruct k; simpl.
    + unfold chan_recv.
      destruct (chans (shared s) !! req_Response rq) as [[|v rest]|]; try done.
      intros [= <-]; simpl. intros Hc. rewrite lookup_insert. by case_decide.
    + by intros [= <-].
  - by intros [= <-].
Qed.

Lemma step_ACall_chan (command : list value) (rnd : Z) (ch : chan) (s s' : System) :
  step (ACall command rnd ch) s = Some s' →
  chans (shared s) !! ch = None ∧ chans (shared s') !! ch = Some [].
Proof.
  simpl. destruct (decide _) as [[_ Hfresh]|]; [|done]. intros [= <-]; simpl.
  split; [done|]. apply lookup_insert_eq.
Qed.

Lemma step_handoff (i : nat) (s s' : System) :
  step (ASend i CaseChan) s = Some s' →
  ∃ req, callers s !! i = Some (AtSend req) ∧
         callers s' !! i = Some (AtRecv req) ∧ writer s' = WGot req.
Proof.
  simpl. destruct (callers s !! i) as [[rq| | |]|] eqn:Hi; try done.
  destruct (writer s); try done. intros [= <-]; simpl.
  exists rq. repeat split; try done.
  apply list_lookup_insert_eq. by eapply lookup_lt_Some.
Qed.

(** A caller holding a request held it before, or has just been made. *)
Lemma caller_step (a : action) (s s' : System) (i : nat) (pc : exec_pc)
    (req : request) :
  step a s = Some s' →
  callers s' !! i = Some pc → caller_request pc = Some req →
  (∃ pc0, callers s !! i = Some pc0 ∧ caller_request pc0 = Some req) ∨
  (∃ command rnd ch,
     a = ACall command rnd ch ∧ i = length (callers s) ∧
     chans (shared s) !! ch = None ∧
     newRequest rnd ch command = Returns req).
Proof.
  intros Hstep Hi Hreq. destruct pc as [rq|rq| |]; simpl in Hreq; simplify_eq.
  - destruct (AtSend_step _ _ _ _ _ Hstep Hi) as [?|?]; [left|by right].
    by eexists.
  - destruct (AtRecv_step _ _ _ _ _ Hstep Hi) as [?|(_ & ? & _)]; left;
      by eexists.
Qed.

(** A held request was held before, or has just been made with a fresh
    channel. *)
Lemma holds_step (a : action) (s s' : System) (req : request) :
  step a s = Some s' →
  holds s' req →
  holds s req ∨
  (∃ command rnd ch,
     a = ACall command rnd ch ∧ chans (shared s) !! ch = None ∧
     newRequest rnd ch command = Returns req).
Proof.
  intros Hstep [[i Hi]|[[i Hi]|Hf]].
  - destruct (AtSend_step _ _ _ _ _ Hstep Hi)
      as [?|(command & rnd & ch & -> & _ & ? & ?)].
    + left. left. by exists i.
    + right. by exists command, rnd, ch.
  - left. destruct (AtRecv_step _ _ _ _ _ Hstep Hi) as [?|(_ & ? & _)].
    + right; left. by exists i.
    + left. by exists i.
  - left. destruct (in_flight_step _ _ _ _ Hstep Hf) as [?|(i & _ & ?)].
    + by right; right.
    + left. by exists i.
Qed.

Lemma ownership_boot : ownership boot.
Proof.
  split.
  - intros req [[i Hi]|[[i Hi]|[?|[[? ?]|[[? ?]|[? ?]]]]]]; done.
  - intros req req' [[i Hi]|[[i Hi]|[?|[[? ?]|[[? ?]|[? ?]]]]]]; done.
  - intros i j pc pc' req req' Hi. done.
  - intros i req req' Hi. done.
  - intros ch buf resp Hc. done.
Qed.

Lemma ownership_step (a : action) (s s' : System) :
  invariant s → ownership s → step a s = Some s' → ownership s'.
Proof.
  intros I O Hstep.
  assert (Hfresh : ∀ req command rnd ch,
            a = ACall command rnd ch → chans (shared s) !! ch = None →
            newRequest rnd ch command = Returns req →
            ∀ req', holds s req' → req_Response req ≠ req_Response req').
  { intros req command rnd ch _ Hnone Hnew req' Hh Heq.
    apply newRequest_returns in Hnew as (_ & _ & Hch).
    apply (own_alloc _ O) in Hh as [buf Hbuf]. congruence. }
  split.
  - intros req Hh.
    destruct (holds_step _ _ _ _ Hstep Hh)
      as [Hold|(command & rnd & ch & -> & _ & Hnew)].
    + eapply chans_alloc_step; [done|]. by apply (own_alloc _ O).
    + apply newRequest_returns in Hnew as (_ & _ & ->).
      apply step_ACall_chan in Hstep as [_ ->]. by eexists.
  - intros req req' Hh Hh' Heq.
    destruct (holds_step _ _ _ _ Hstep Hh)
      as [Hold|(command & rnd & ch & -> & Hnone & Hnew)];
    destruct (holds_step _ _ _ _ Hstep Hh')
      as [Hold'|(command' & rnd' & ch' & Ha & Hnone' & Hnew')].
    + by apply (own_inj _ O).
    + symmetry in Heq. by destruct (Hfresh _ _ _ _ Ha Hnone' Hnew' _ Hold).
    + by destruct (Hfresh _ _ _ _ eq_refl Hnone Hnew _ Hold').
    + simplify_eq. congruence.
  - intros i j pc pc' req req' Hi Hj Hreq Hreq' Heq.
    destruct (caller_step _ _ _ _ _ _ Hstep Hi Hreq)
      as [(pc0 & Hi0 & Hr0)|(command & rnd & ch & -> & -> & Hnone & Hnew)];
    destruct (caller_step _ _ _ _ _ _ Hstep Hj Hreq')
      as [(pc0' & Hj0 & Hr0')|(command' & rnd' & ch' & Ha & -> & Hnone' & Hnew')].
    + by eapply (own_callers _ O).
    + exfalso. symmetry in Heq.
      apply (Hfresh _ _ _ _ Ha Hnone' Hnew' req); [|done].
      destruct pc0; simpl in Hr0; simplify_eq.
      * left. by exists i.
      * right; left. by exists i.
    + exfalso. apply (Hfresh _ _ _ _ eq_refl Hnone Hnew req'); [|done].
      destruct pc0'; simpl in Hr0'; simplify_eq.
      * left. by exists j.
      * right; left. by exists j.
    + done.
  - intros i req req' Hi Hf.
    destruct (AtSend_step _ _ _ _ _ Hstep Hi)
      as [Hi0|(command & rnd & ch & -> & -> & Hnone & Hnew)];
    destruct (in_flight_step _ _ _ _ Hstep Hf) as [Hf0|(j & Ha & Hj)].
    + by apply (own_send _ O _ _ _ Hi0).
    + subst a. intros Heq.
      assert (i = j) as ->.
      { by eapply (own_callers _ O _ _ _ _ _ _ Hi0 Hj). }
      apply step_handoff in Hstep as (rq & _ & Hrecv & _). congruence.
    + apply (Hfresh _ _ _ _ eq_refl Hnone Hnew). by right; right.
    + done.
  - intros ch buf resp Hc Hin.
    destruct (chans_step _ _ _ _ _ Hstep Hc)
      as [Hc0|[(Hnone & -> & _)|[(data & resp0 & rq & -> & Hev & Hid & Hch & Hc0 & ->)
         |(i & rq & v & -> & Hi & Hch & Hc0)]]].
    + destruct (own_reply _ O _ _ _ Hc0 Hin) as [Hev Hids]. split; [done|].
      intros req Hh Hreq.
      destruct (holds_step _ _ _ _ Hstep Hh)
        as [Hold|(command & rnd & ch' & -> & Hnone & Hnew)]; [by apply Hids|].
      apply newRequest_returns in Hnew as (_ & _ & Hch). congruence.
    + by apply elem_of_nil in Hin.
    + apply list_elem_of_singleton in Hin as ->. split; [done|].
      intros req Hh Hreq.
      destruct (holds_step _ _ _ _ Hstep Hh) as [Hold|(? & ? & ? & ? & _)];
        [|done].
      assert (req = rq) as ->.
      { apply (own_inj _ O); [done| |congruence].
        right; right. right; right; right. by eexists. }
      by destruct (inv_key _ I _ _ Hid).
    + assert (Hin' : resp ∈ v :: buf) by (by apply elem_of_cons; right).
      destruct (own_reply _ O _ _ _ Hc0 Hin') as [Hev Hids]. split; [done|].
      intros req Hh Hreq.
      destruct (holds_step _ _ _ _ Hstep Hh) as [Hold|(? & ? & ? & ? & _)];
        [|done].
      by apply Hids.
Qed.

(** Ownership holds at every point of every run. *)
Lemma reachable_ownership (s : System) : reachable s → ownership s.
Proof.
  apply reachable_ind.
  - apply ownership_boot.
  - intros a s0 s1 Hs0 O. apply ownership_step; [|done].
    by apply reachable_invariant.
Qed.

(** ** Channels no reply can reach *)

(** A channel to which a reply can come after a move was one before the
    move, or has just been made. *)
Lemma may_deliver_step (a : action) (s s' : System) (ch : chan) :
  step a s = Some s' →
  may_deliver s' ch →
  may_deliver s ch ∨ chans (shared s) !! ch = None.
Proof.
  intros Hstep [(i & req & Hi & Hch)|Hrest].
  { destruct (AtSend_step _ _ _ _ _ Hstep Hi)
      as [?|(command & rnd & c0 & _ & _ & Hnone & Hnew)].
    - left. left. by exists i, req.
    - right. apply newRequest_returns in Hnew as (_ & _ & ?). congruence. }
  left. revert Hstep Hrest. unfold may_deliver.
  destruct a as [command rnd c0|j k|m|r| |r|j k|name fn]; simpl.
  - destruct (decide _); [|done]. intros [= <-]; simpl. by right.
  - destruct (callers s !! j) as [[rq| | |]|] eqn:Hj; try done.
    destruct k; simpl.
    + destruct (writer s) eqn:Hw; try done. intros [= <-]; simpl.
      intros [(? & [= <-] & ?)|[(? & ? & [=] & _)|?]]; [|by right; right; right].
      left. by exists j, rq.
    + intros [= <-]; simpl. by right.
  - destruct (writer s) as [|rq| |] eqn:Hw; try done.
    destruct m as [b|]; simpl; intros [= <-]; simpl.
    + intros [(? & [=] & _)|[(? & ? & [= <- _] & ?)|(id & r & Hid & ?)]].
      * right; left. by exists rq.
      * apply lookup_insert_Some in Hid as [[_ <-]|[_ Hid]].
        -- right; left. by exists rq.
        -- right; right; right. by exists id, r.
    + intros [(? & [=] & _)|[(? & ? & [=] & _)|?]]. by right; right; right.
  - destruct (writer s) as [| |rq b|] eqn:Hw; try done. intros [= <-]; simpl.
    intros [(? & [=] & _)|[(? & ? & [=] & _)|(id & r' & Hid & ?)]].
    right; right; right. exists id, r'. by destruct r.
  - destruct (writer s) as [| | |rq wr] eqn:Hw; try done. intros [= <-]; simpl.
    intros [(? & [=] & _)|[(? & ? & [=] & _)|(id & r' & Hid & ?)]].
    right; right; right. exists id, r'. split; [|done].
    destruct wr; simpl in Hid; [done|].
    by apply lookup_delete_Some in Hid as [_ ?].
  - destruct (reading s); [|done].
    destruct (readloop_body r (shared s)) as [[c|c]|] eqn:Hb; try done;
      intros [= <-]; simpl; intros Hf.
    + destruct r as [e|data e|data resp]; simpl in Hb; simplify_eq;
        [by right..|].
      destruct (dispatch resp (shared s)) as [c'|] eqn:Hd; simpl in Hb; [|done].
      simplify_eq.
      apply dispatch_Some in Hd as [->|[(fn & _ & ->)|(rq & _ & _ & _ & ->)]];
        simpl in Hf; [by right..|].
      destruct Hf as [?|[?|(id & r' & Hid & ?)]]; [by right; left|
        by right; right; left|].
      right; right; right. exists id, r'. split; [|done].
      by apply lookup_delete_Some in Hid as [_ ?].
    + destruct r as [e|data e|data resp]; simpl in Hb; simplify_eq.
      by destruct (dispatch resp (shared s)).
  - destruct (callers s !! j) as [[|rq| |]|] eqn:Hj; try done.
    destruct k; simpl.
    + unfold chan_recv.
      destruct (chans (shared s) !! req_Response rq) as [[|v buf]|]; try done.
      intros [= <-]; simpl. by right.
    + intros [= <-]; simpl. by right.
  - intros [= <-]; simpl. by right.
Qed.

(** An abandoned channel stays abandoned through a move, and what the
    move adds to the log is not about a request with this channel. *)
Lemma abandoned_step (a : action) (s s' : System) (ch : chan) :
  step a s = Some s' → abandoned s ch →
  abandoned s' ch ∧
  ∃ l, log s' = log s ++ l ∧
       Forall (fun ev => req_Response (obs_request ev) ≠ ch) l.
Proof.
  intros Hstep [Hempty Hno]. split; [split|].
  - destruct (chans_alloc_step _ _ _ ch Hstep) as [buf Hbuf]; [by eexists|].
    destruct (chans_step _ _ _ _ _ Hstep Hbuf)
      as [Hc0|[(Hnone & _)|[(data & resp & rq & _ & _ & Hid & Hch & _)
         |(i & rq & v & _ & _ & _ & Hc0)]]]; try congruence.
    destruct Hno. right; right; right. by exists (resp_RequestID resp), rq.
  - intros Hd. destruct (may_deliver_step _ _ _ _ Hstep Hd); [done|congruence].
  - destruct (step_log _ _ _ Hstep)
      as [(Hl & _)|[(req & b & Hw & _ & Hl & _)|(req & b & r & Hw & _ & Hl & _)]].
    + exists []. by rewrite app_nil_r.
    + exists [EvInsert req]. split; [done|]. constructor; [|done].
      simpl. intros Hch. destruct Hno. right; left. by exists req.
    + exists [EvWrite req b r]. split; [done|]. constructor; [|done].
      simpl. intros Hch. destruct Hno. right; right; left. by exists req, b.
Qed.

(** An abandoned channel stays abandoned for the rest of the run, and
    nothing is inserted or written any more for a request with this
    channel. *)
Lemma abandoned_forever (tr : list action) (s s' : System) (ch : chan) :
  abandoned s ch → run_moves tr s = Some s' →
  abandoned s' ch ∧
  ∃ l, log s' = log s ++ l ∧
       Forall (fun ev => req_Response (obs_request ev) ≠ ch) l.
Proof.
  revert s. induction tr as [|a tr IH]; intros s Hab; simpl.
  - intros [= <-]. split; [done|]. exists []. by rewrite app_nil_r.
  - destruct (step a s) as [s1|] eqn:Hstep; simpl; [|done]. intros Hrun.
    destruct (abandoned_step _ _ _ _ Hstep Hab) as (Hab1 & l1 & Hl1 & Hf1).
    destruct (IH _ Hab1 Hrun) as (Hab' & l2 & Hl2 & Hf2).
    split; [done|]. exists (l1 ++ l2). split.
    + by rewrite Hl2, Hl1, app_assoc.
    + by apply Forall_app.
Qed.

(** What being abandoned means for the parties: the table holds no
    request with this channel, and a caller waiting on it cannot
    receive. *)
Lemma abandoned_blocks (s : System) (ch : chan) :
  abandoned s ch →
  (∀ id r, reqMap (shared s) !! id = Some r → req_Response r ≠ ch) ∧
  (∀ i req, callers s !! i = Some (AtRecv req) → req_Response req = ch →
            step (ARecv i CaseChan) s = None ∧
            ∃ s', step (ARecv i CaseTimer) s = Some s' ∧
                  callers s' !! i = Some (Returned None (Some ErrTimeoutRecv))).
Proof.
  intros [Hempty Hno]. split.
  - intros id r Hid Hch. destruct Hno. right; right; right. by exists id, r.
  - intros i req Hi <-. simpl. rewrite Hi. simpl.
    rewrite (chan_recv_empty _ _ Hempty). split; [done|].
    eexists. split; [done|]. simpl.
    apply list_lookup_insert_eq. by eapply lookup_lt_Some.
Qed.

Lemma reachable_sys_called_42 : reachable sys_called_42.
Proof. exists [ACall cmd_volume 42 0%nat]. vm_compute. reflexivity. Qed.

Lemma reachable_sys_handed_42 : reachable sys_handed_42.
Proof.
  exists [ACall cmd_volume 42 0%nat; ASend 0 CaseChan]. vm_compute. reflexivity.
Qed.

Lemma reachable_sys_write_failed_42 : reachable sys_write_failed_42.
Proof.
  exists [ACall cmd_volume 42 0%nat; ASend 0 CaseChan;
          AMarshal (Some json_volume_42);
          AWrite (WriteErr 0 (ErrOther "write: broken pipe"))].
  vm_compute. reflexivity.
Qed.

Lemma reachable_sys_replied_42 : reachable sys_replied_42.
Proof.
  exists (run_volume_42 ++ [ARead (Decoded data_reply_42 reply_42)]).
  vm_compute. reflexivity.
Qed.

(** ** Requests that are dropped *)

(** X4.  When [json.Marshal] fails for a request the write loop has
    received, the iteration ends there: the shared state and the log are
    untouched and the write loop is back at its receive.  For the rest of
    the run the request is never inserted in the table nor written to the
    connection, its reply channel stays empty, and its caller cannot
    receive: the call can only end by its timer, with [ErrTimeoutRecv]. *)
Theorem marshal_error_drops_request (s : System) (req : request) :
  reachable s → writer s = WGot req →
  ∃ s1,
    step (AMarshal None) s = Some s1 ∧
    shared s1 = shared s ∧ writer s1 = WIdle ∧ log s1 = log s ∧
    ∀ tr s2, run_moves tr s1 = Some s2 →
      chans (shared s2) !! req_Response req = Some [] ∧
      (∀ id r, reqMap (shared s2) !! id = Some r →
               req_Response r ≠ req_Response req) ∧
      (∃ l, log s2 = log s ++ l ∧ Forall (fun ev => obs_request ev ≠ req) l) ∧
      (∀ i, callers s2 !! i = Some (AtRecv req) →
            step (ARecv i CaseChan) s2 = None ∧
            ∃ s3, step (ARecv i CaseTimer) s2 = Some s3 ∧
                  callers s3 !! i = Some (Returned None (Some ErrTimeoutRecv))).
Proof.
  intros Hs Hw. pose proof (reachable_invariant _ Hs) as I.
  eexists. split; [simpl; rewrite Hw; reflexivity|]. simpl.
  rewrite app_nil_r. do 3 (split; [done|]).
  intros tr s2 Hrun.
  match type of Hrun with run_moves _ ?x = _ => set (s1 := x) in * end.
  assert (Hab : abandoned s1 (req_Response req)).
  { split; [by destruct (inv_got_slot _ I _ Hw)|].
    intros [(i & r & Hi & Hch)|[(r & [=] & _)|[(r & b & [=] & _)|(id & r & Hid & Hch)]]].
    - by destruct (inv_send_got _ I _ _ _ Hi Hw).
    - symmetry in Hch. by destruct (inv_got_pending _ I _ _ _ Hw Hid). }
  destruct (abandoned_forever _ _ _ _ Hab Hrun) as (Hab2 & l & Hl & Hf).
  destruct (abandoned_blocks _ _ Hab2) as [Htable Hcaller].
  split; [apply Hab2|]. split; [done|]. split.
  - exists l. split; [done|].
    eapply Forall_impl; [done|]. intros ev Hne Heq. apply Hne. by rewrite Heq.
  - intros i Hi. by apply (Hcaller i req).
Qed.

(** X5.  When [conn.Write] has failed for a request and no reply is in
    its channel, the write loop deletes the id of the request from the
    table and goes back to its receive; for the rest of the run no entry
    of the table is this request, its reply channel stays empty, and its
    caller cannot receive: the call can only end by its timer, with
    [ErrTimeoutRecv]. *)
Theorem write_error_starves_caller (s : System) (req : request) (n : nat)
    (e : error) :
  reachable s → writer s = WAfter req (WriteErr n e) →
  chans (shared s) !! req_Response req = Some [] →
  ∃ s1,
    step AAfter s = Some s1 ∧
    reqMap (shared s1) = delete (RequestID req) (reqMap (shared s)) ∧
    chans (shared s1) = chans (shared s) ∧ writer s1 = WIdle ∧
    ∀ tr s2, run_moves tr s1 = Some s2 →
      chans (shared s2) !! req_Response req = Some [] ∧
      (∀ id r, reqMap (shared s2) !! id = Some r →
               req_Response r ≠ req_Response req) ∧
      (∀ i, callers s2 !! i = Some (AtRecv req) →
            step (ARecv i CaseChan) s2 = None ∧
            ∃ s3, step (ARecv i CaseTimer) s2 = Some s3 ∧
                  callers s3 !! i = Some (Returned None (Some ErrTimeoutRecv))).
Proof.
  intros Hs Hw Hempty.
  pose proof (reachable_invariant _ Hs) as I.
  pose proof (reachable_ownership _ Hs) as O.
  assert (Hf : in_flight s req) by (right; right; left; by eexists).
  eexists. split; [simpl; rewrite Hw; reflexivity|]. simpl.
  do 3 (split; [done|]).
  intros tr s2 Hrun.
  match type of Hrun with run_moves _ ?x = _ => set (s1 := x) in * end.
  assert (Hab : abandoned s1 (req_Response req)).
  { split; [done|].
    intros [(i & r & Hi & Hch)|[(r & [=] & _)|[(r & b & [=] & _)|(id & r & Hid & Hch)]]].
    - by destruct (own_send _ O _ _ _ Hi Hf).
    - simpl in Hid. apply lookup_delete_Some in Hid as [Hne Hid].
      assert (r = req) as ->.
      { apply (own_inj _ O); [|by right; right|done].
        right; right. right; right; right. by eexists. }
      by destruct (inv_key _ I _ _ Hid). }
  destruct (abandoned_forever _ _ _ _ Hab Hrun) as (Hab2 & _).
  destruct (abandoned_blocks _ _ Hab2) as [Htable Hcaller].
  split; [apply Hab2|]. split; [done|].
  intros i Hi. by apply (Hcaller i req).
Qed.

(** X6.  A call of [Exec] waiting to hand off its request can always take
    the timer: it returns [ErrTimeoutSend] with the shared state, the
    write loop and the log untouched, and for the rest of the run its
    request is never inserted in the table nor written to the
    connection. *)
Theorem send_timeout_leaves_no_trace (s : System) (i : nat) (req : request) :
  reachable s → callers s !! i = Some (AtSend req) →
  ∃ s1,
    step (ASend i CaseTimer) s = Some s1 ∧
    callers s1 !! i = Some (Returned None (Some ErrTimeoutSend)) ∧
    shared s1 = shared s ∧ writer s1 = writer s ∧ log s1 = log s ∧
    ∀ tr s2, run_moves tr s1 = Some s2 →
      (∀ id r, reqMap (shared s2) !! id = Some r →
               req_Response r ≠ req_Response req) ∧
      (∃ l, log s2 = log s ++ l ∧ Forall (fun ev => obs_request ev ≠ req) l).
Proof.
  intros Hs Hi.
  pose proof (reachable_invariant _ Hs) as I.
  pose proof (reachable_ownership _ Hs) as O.
  eexists. split; [simpl; rewrite Hi; reflexivity|]. simpl.
  split; [apply list_lookup_insert_eq; by eapply lookup_lt_Some|].
  do 3 (split; [done|]).
  intros tr s2 Hrun.
  match type of Hrun with run_moves _ ?x = _ => set (s1 := x) in * end.
  assert (Hab : abandoned s1 (req_Response req)).
  { split; [by destruct (inv_send_slot _ I _ _ Hi)|].
    intros [(j & r & Hj & Hch)|[(r & Hw & Hch)|[(r & b & Hw & Hch)|(id & r & Hid & Hch)]]];
      simpl in *.
    - old_sender Hj. symmetry in Hch.
      by destruct (inv_send_send _ I _ _ _ _ Hi Hj Hch).
    - symmetry in Hch. by destruct (inv_send_got _ I _ _ _ Hi Hw).
    - symmetry in Hch. destruct (own_send _ O _ _ r Hi); [|done].
      right; left. by eexists.
    - symmetry in Hch. by destruct (inv_send_pending _ I _ _ _ _ Hi Hid). }
  destruct (abandoned_forever _ _ _ _ Hab Hrun) as (Hab2 & l & Hl & Hf).
  destruct (abandoned_blocks _ _ Hab2) as [Htable _].
  split; [done|]. exists l. split; [done|].
  eapply Forall_impl; [done|]. intros ev Hne Heq. apply Hne. by rewrite Heq.
Qed.

(** ** Correlation *)

(** X7.  At any point of a run, the reply a waiting call of [Exec] takes
    from its channel, and returns with a nil error, carries the id of the
    request of that call and no event name. *)
Theorem Exec_returns_own_reply (s s' : System) (i : nat) (req : request) :
  reachable s → callers s !! i = Some (AtRecv req) →
  step (ARecv i CaseChan) s = Some s' →
  ∃ res, callers s' !! i = Some (Returned (Some res) None) ∧
         resp_RequestID res = RequestID req ∧
         Event res = EmptyString.
Proof.
  intros Hs Hi. pose proof (reachable_ownership _ Hs) as O.
  simpl. rewrite Hi. simpl. unfold chan_recv.
  destruct (chans (shared s) !! req_Response req) as [[|v buf]|] eqn:Hc;
    simpl; try done.
  intros [= <-]; simpl. exists v.
  split; [apply list_lookup_insert_eq; by eapply lookup_lt_Some|].
  destruct (own_reply _ O _ _ v Hc) as [Hev Hid]; [by apply elem_of_cons; left|].
  split; [|done]. apply Hid; [|done]. right; left. by exists i.
Qed.

(** ** The read loop never stalls *)


(** ** What [Exec] returns *)

(** A returned caller had returned before, or has just taken a timer or a
    reply. *)
Lemma Returned_step (a : action) (s s' : System) (i : nat)
    (res : option Response) (err : option error) :
  step a s = Some s' →
  callers s' !! i = Some (Returned res err) →
  callers s !! i = Some (Returned res err) ∨
  (res = None ∧ (err = Some ErrTimeoutSend ∨ err = Some ErrTimeoutRecv)) ∨
  (∃ req r buf, callers s !! i = Some (AtRecv req) ∧
                chans (shared s) !! req_Response req = Some (r :: buf) ∧
                res = Some r ∧ err = None).
Proof.
  destruct a as [command rnd ch|j k|m|r| |r|j k|name fn]; simpl.
  - destruct (decide _); [|done]. intros [= <-]; simpl.
    intros [Hi|[-> Hi]]%lookup_snoc_Some; [by left|].
    by destruct (newRequest rnd ch command).
  - destruct (callers s !! j) as [[rq| | |]|] eqn:Hj; try done.
    destruct (Exec_send rq k (writer s)) as [[w pc]|] eqn:Hs; [|done].
    intros [= <-]; simpl. intros Hi.
    apply list_lookup_insert_Some in Hi as [(-> & -> & _)|[_ Hi]]; [|by left].
    right; left. destruct k; simpl in Hs; [destruct (writer s)|];
      simplify_eq. split; [done|by left].
  - destruct (writer s); try done.
    destruct (writeloop_register _ _ _). intros [= <-]. by left.
  - destruct (writer s); try done. intros [= <-]. by left.
  - destruct (writer s); try done. intros [= <-]. by left.
  - destruct (reading s); [|done].
    destruct (readloop_body r (shared s)) as [[c|c]|]; try done;
      intros [= <-]; by left.
  - destruct (callers s !! j) as [[|rq| |]|] eqn:Hj; try done.
    destruct k; simpl.
    + unfold chan_recv.
      destruct (chans (shared s) !! req_Response rq) as [[|v buf]|] eqn:Hc;
        try done.
      intros [= <-]; simpl. intros Hi.
      apply list_lookup_insert_Some in Hi as [(-> & [= <- <-] & _)|[_ Hi]];
        [|by left].
      right; right. by exists rq, v, buf.
    + intros [= <-]; simpl. intros Hi.
      apply list_lookup_insert_Some in Hi as [(-> & [= <- <-] & _)|[_ Hi]];
        [|by left].
      right; left. split; [done|by right].
  - intros [= <-]. by left.
Qed.

(** The two shapes of what [Exec] returns. *)
Lemma Returned_shape (s : System) (i : nat) (res : option Response)
    (err : option error) :
  reachable s → callers s !! i = Some (Returned res err) →
  (∃ r, res = Some r ∧ err = None ∧ Event r = EmptyString) ∨
  (res = None ∧ (err = Some ErrTimeoutSend ∨ err = Some ErrTimeoutRecv)).
Proof.
  intros Hs. revert i res err.
  induction Hs as [|a s s' Hs IH Hstep] using reachable_ind; [done|].
  intros i res err Hi.
  destruct (Returned_step _ _ _ _ _ _ Hstep Hi)
    as [Hi0|[?|(req & r & buf & _ & Hc & -> & ->)]]; [by eapply IH|by right|].
  left. exists r. repeat split.
  apply (own_reply _ (reachable_ownership _ Hs) _ _ r Hc).
  by apply elem_of_cons; left.
Qed.

(** X9.  Whenever a call of [Exec] has returned, it has returned either
    a reply with a nil error, the reply being a message without event
    name, or no reply with one of the two timeout errors
    [ErrTimeoutSend] and [ErrTimeoutRecv]; it never returns both a reply
    and an error, nor neither. *)
Theorem Exec_result_shape (s : System) (i : nat) (res : option Response)
    (err : option error) :
  reachable s → callers s !! i = Some (Returned res err) →
  (is_Some res ↔ err = None) ∧
  (∀ r, res = Some r → Event r = EmptyString) ∧
  (∀ e, err = Some e → e = ErrTimeoutSend ∨ e = ErrTimeoutRecv).
Proof.
  intros Hs Hi.
  destruct (Returned_shape _ _ _ _ Hs Hi)
    as [(r & -> & -> & Hev)|[-> [->| ->]]].
  - split; [done|]. split; [|done]. by intros r' [= <-].
  - split; [split; [by intros [? ?]|done]|]. split; [done|].
    intros e [= <-]. by left.
  - split; [split; [by intros [? ?]|done]|]. split; [done|].
    intros e [= <-]. by right.
Qed.

(** ** The callers of [Exec] in the high-level client *)

(** X10.  After the call of [Exec] it makes has returned, [InputCmd]
    always returns a non-nil error: when a reply arrived, an error made of
    the reply's [error] string, whatever that string is (the word
    [success] that mpv sends for an accepted command included); otherwise
    the timeout error of [Exec]. *)
Theorem InputCmd_never_nil (s : System) (i : nat) (res : option Response)
    (err : option error) :
  reachable s → callers s !! i = Some (Returned res err) →
  ∃ e, InputCmd res err = Some e ∧
       (∀ r, res = Some r → e = errors_New (Err r)) ∧
       (res = None → e = ErrTimeoutSend ∨ e = ErrTimeoutRecv).
Proof.
  intros Hs Hi.
  destruct (Returned_shape _ _ _ _ Hs Hi)
    as [(r & -> & -> & Hev)|[-> [->| ->]]]; simpl; eexists;
    (split; [reflexivity|]); split; try done.
  - by intros r' [= <-].
  - by left.
  - by right.
Qed.

(** X11.  After the call of [Exec] they make has returned,
    [GetFloatProperty] and [GetBoolProperty] return the data of the reply
    with a nil error when a reply arrived whose data has the type asked
    for; [ErrInvalidType] with the zero value when a reply arrived with
    data of another type; and the timeout error of [Exec] with the zero
    value when no reply arrived.  A non-nil error always comes with the
    zero value. *)
Theorem typed_getters (s : System) (i : nat) (res : option Response)
    (err : option error) :
  reachable s → callers s !! i = Some (Returned res err) →
  ((GetFloatProperty res err).2 ≠ None → (GetFloatProperty res err).1 = 0) ∧
  ((GetBoolProperty res err).2 ≠ None → (GetBoolProperty res err).1 = false) ∧
  (∀ r, res = Some r →
     (∀ x, Data r = VFloat x → GetFloatProperty res err = (x, None)) ∧
     ((∀ x, Data r ≠ VFloat x) →
      GetFloatProperty res err = (0, Some ErrInvalidType)) ∧
     (∀ b, Data r = VBool b → GetBoolProperty res err = (b, None)) ∧
     ((∀ b, Data r ≠ VBool b) →
      GetBoolProperty res err = (false, Some ErrInvalidType))) ∧
  (res = None →
     GetFloatProperty res err = (0, err) ∧
     GetBoolProperty res err = (false, err) ∧
     (err = Some ErrTimeoutSend ∨ err = Some ErrTimeoutRecv)).
Proof.
  intros Hs Hi.
  destruct (Returned_shape _ _ _ _ Hs Hi)
    as [(r & -> & -> & Hev)|[-> Herr]].
  - unfold GetFloatProperty, GetBoolProperty.
    split; [by destruct (Data r)|]. split; [by destruct (Data r)|].
    split; [|done]. intros r' [= <-]. repeat split.
    + by intros x ->.
    + intros Hne. destruct (Data r); try done. by destruct (Hne bits).
    + by intros b ->.
    + intros Hne. destruct (Data r); try done. by destruct (Hne b).
  - simpl. repeat split; try done.
Qed.

(** ** A bound on the table *)

(** X12.  At any point of a run the table of pending requests holds at
    most 10000 entries, each under an id of the range of
    [rand.Intn(10000)] and each the request carrying that id. *)
Theorem reqMap_bounded (s : System) :
  reachable s →
  Z.of_nat (size (reqMap (shared s))) ≤ 10000 ∧
  (∀ id req, reqMap (shared s) !! id = Some req →
             0 ≤ id < 10000 ∧ RequestID req = id).
Proof.
  intros I%reachable_invariant. split.
  - assert (size (reqMap (shared s)) ≤ Z.to_nat 10000)%nat; [|lia].
    rewrite <- (size_dom (D := gset Z)).
    transitivity (size (list_to_set (C := gset Z) (seqZ 0 10000))).
    + apply subseteq_size. intros id [req Hid]%elem_of_dom.
      apply elem_of_list_to_set, elem_of_seqZ.
      destruct (inv_key _ I _ _ Hid) as [_ Hr]. unfold Intn_range in Hr. lia.
    + rewrite size_list_to_set by apply NoDup_seqZ.
      by rewrite length_seqZ.
  - intros id req Hid. by destruct (inv_key _ I _ _ Hid).
Qed.

(** ** The connection is what the write loop wrote *)

(** The write loop is at its write for bytes it has just made, or was
    there before. *)
Lemma WWrite_step (a : action) (s s' : System) (req : request) (b : list Byte.byte) :
  step a s = Some s' →
  writer s' = WWrite req b →
  writer s = WWrite req b ∨
  (∃ m, writer s = WGot req ∧ a = AMarshal (Some m) ∧ b = outbound req m).
Proof.
  destruct a as [command rnd ch|j k|m|r| |r|j k|name fn]; simpl.
  - destruct (decide _); [|done]. intros [= <-]. by left.
  - destruct (callers s !! j) as [[rq| | |]|]; try done.
    destruct k; simpl.
    + destruct (writer s); try done. by intros [= <-].
    + intros [= <-]. by left.
  - destruct (writer s) as [|rq| |]; try done.
    destruct m as [m|]; simpl; intros [= <-]; simpl; [|done].
    intros [= <- <-]. right. by exists m.
  - destruct (writer s); try done. by intros [= <-].
  - destruct (writer s); try done. by intros [= <-].
  - destruct (reading s); [|done].
    destruct (readloop_body r (shared s)) as [[c|c]|]; try done;
      intros [= <-]; by left.
  - destruct (callers s !! j) as [[|rq| |]|]; try done.
    destruct (Exec_recv rq k (shared s)) as [[c pc]|]; [|done].
    intros [= <-]. by left.
  - intros [= <-]. by left.
Qed.

(** X13.  At any point of a run the bytes on the connection are the
    concatenation, in the order of the writes, of what each call of
    [conn.Write] put there (all of its argument, or its first [n] bytes
    when it failed after [n]); and the argument of each of these calls was
    the record of its request: the marshalled bytes and a newline, or the
    raw form. *)
Theorem conn_is_the_writes (s : System) :
  reachable s →
  conn (shared s) = concat (written <$> log s) ∧
  (∀ i req b r, log s !! i = Some (EvWrite req b r) →
                ∃ m, b = outbound req m) ∧
  (∀ req b, writer s = WWrite req b → ∃ m, b = outbound req m).
Proof.
  induction 1 as [|a s s' Hs (Hconn & Hlog & Hw) Hstep] using reachable_ind.
  { repeat split; try done. }
  assert (Hw' : ∀ req b, writer s' = WWrite req b → ∃ m, b = outbound req m).
  { intros req b Hb.
    destruct (WWrite_step _ _ _ _ _ Hstep Hb) as [?|(m & _ & _ & ->)];
      [by eapply Hw|by exists m]. }
  destruct (step_log _ _ _ Hstep)
    as [(Hl & Hc & _)|[(req & b & _ & _ & Hl & Hc & _)
       |(req & b & r & Hwr & _ & Hl & Hsh)]].
  - rewrite Hl, Hc. done.
  - rewrite Hl, Hc, fmap_app, concat_app. simpl. rewrite app_nil_r.
    repeat split; try done.
    intros i rq b' r' [Hi|[_ [=]]]%lookup_snoc_Some. by eapply Hlog.
  - rewrite Hl, Hsh, fmap_app, concat_app. simpl. rewrite app_nil_r.
    split; [|split; [|done]].
    + destruct r; simpl; by rewrite Hconn.
    + intros i rq b' r' [Hi|[_ [= -> -> ->]]]%lookup_snoc_Some;
        [by eapply Hlog|by eapply Hw].
Qed.

(** ** A call from end to end *)

(** X14.  From any state where the write loop is at its receive and the
    read loop is running, a call of [Exec] whose request is accepted,
    marshalled and written, and whose reply (a message without event name
    carrying the id drawn) is read next, returns exactly that reply with
    a nil error; the connection has grown by the record of the request,
    the id is out of the table whatever the table held under it before,
    and the reply channel is empty again. *)
Theorem Exec_round_trip (s : System) (command : list value) (rnd : Z) (ch : chan)
    (req : request) (m data : list Byte.byte) (reply : Response) :
  writer s = WIdle → reading s = true →
  Intn_range 10000 rnd → chans (shared s) !! ch = None →
  newRequest rnd ch command = Returns req →
  Event reply = EmptyString → resp_RequestID reply = rnd →
  ∃ s',
    run_moves [ACall command rnd ch; ASend (length (callers s)) CaseChan;
               AMarshal (Some m); AWrite WriteOk; AAfter;
               ARead (Decoded data reply);
               ARecv (length (callers s)) CaseChan] s = Some s' ∧
    callers s' = callers s ++ [Returned (Some reply) None] ∧
    conn (shared s') = conn (shared s) ++ outbound req m ∧
    reqMap (shared s') = delete rnd (reqMap (shared s)) ∧
    chans (shared s') = <[ch := []]> (chans (shared s)) ∧
    writer s' = WIdle.
Proof.
  intros Hw Hrd Hrnd Hfresh Hnew Hev Hid.
  destruct (newRequest_returns _ _ _ _ Hnew) as (_ & Hrid & Hch).
  destruct s as [c w rd cs lg]; simpl in *; subst w rd.
  simpl. rewrite decide_True by done. unfold Exec_enter. rewrite Hnew. simpl.
  rewrite (list_lookup_middle cs [] _ (length cs)) by done.
  cbn. unfold dispatch. cbn. rewrite Hev. cbn.
  rewrite Hid, <- Hrid, lookup_insert_eq.
  unfold chan_send. cbn. rewrite Hch, lookup_insert_eq. cbn.
  rewrite list_lookup_insert_eq by (rewrite length_app; simpl; lia).
  unfold chan_recv. cbn. rewrite Hch, lookup_insert_eq. cbn.
  eexists. split; [reflexivity|]. cbn.
  split; [|split; [done|split; [|split; [|done]]]].
  - rewrite list_insert_insert_eq.
    replace (length cs) with (length cs + 0)%nat by lia.
    by rewrite insert_app_r.
  - apply delete_insert_eq.
  - by rewrite !insert_insert_eq.
Qed.

(** ** Events *)


(** What [dispatch] adds to the record of invocations: nothing, or the
    callback registered under the non-empty event name of the message. *)
Lemma dispatch_calls (resp : Response) (c c' : State) :
  dispatch resp c = Some c' →
  calls c' = calls c ∨
  (Event resp ≠ EmptyString ∧
   ∃ fn, event c !! Event resp = Some fn ∧ calls c' = calls c ++ [(fn, resp)]).
Proof.
  unfold dispatch. destruct (String.eqb (Event resp) EmptyString) eqn:E.
  - destruct (reqMap c !! resp_RequestID resp) as [req|]; [|by intros [= <-]; left].
    unfold chan_send. simpl.
    destruct (chans c !! req_Response req) as [buf|]; [|done].
    destruct (length buf <? reply_cap)%nat; [|done]. intros [= <-]. by left.
  - apply String.eqb_neq in E.
    destruct (event c !! Event resp) as [fn|]; intros [= <-]; [|by left].
    right. split; [done|]. by exists fn.
Qed.

Lemma calls_step (a : action) (s s' : System) :
  step a s = Some s' →
  calls (shared s') = calls (shared s) ∨
  (∃ data resp fn,
     a = ARead (Decoded data resp) ∧ Event resp ≠ EmptyString ∧
     event (shared s) !! Event resp = Some fn ∧
     calls (shared s') = calls (shared s) ++ [(fn, resp)]).
Proof.
  destruct a as [command rnd ch|j k|m|r| |r|j k|name fn]; simpl.
  - destruct (decide _); [|done]. intros [= <-]. by left.
  - destruct (callers s !! j) as [[rq| | |]|]; try done.
    destruct (Exec_send rq k (writer s)) as [[w pc]|]; [|done].
    intros [= <-]. by left.
  - destruct (writer s); try done. destruct m; intros [= <-]; by left.
  - destruct (writer s); try done. intros [= <-]. destruct r; by left.
  - destruct (writer s) as [| | |rq wr]; try done. intros [= <-].
    destruct wr; by left.
  - destruct (reading s); [|done].
    destruct r as [e|data e|data resp]; simpl; try (intros [= <-]; by left).
    destruct (dispatch resp (shared s)) as [c'|] eqn:Hd; simpl; [|done].
    intros [= <-]; simpl.
    destruct (dispatch_calls _ _ _ Hd) as [?|(Hev & fn & Hfn & Hc)]; [by left|].
    right. by exists data, resp, fn.
  - destruct (callers s !! j) as [[|rq| |]|]; try done.
    destruct k; simpl.
    + unfold chan_recv.
      destruct (chans (shared s) !! req_Response rq) as [[|v buf]|]; try done.
      intros [= <-]. by left.
    + intros [= <-]. by left.
  - intros [= <-]. by left.
Qed.

(** X16.  At any point of a run, every invocation of a callback made so
    far was for a message with a non-empty event name: a reply is never
    passed to a callback, and a callback registered under the empty name
    is never invoked. *)
Theorem callbacks_only_get_events (s : System) :
  reachable s →
  ∀ fn resp, (fn, resp) ∈ calls (shared s) → Event resp ≠ EmptyString.
Proof.
  induction 1 as [|a s s' Hs IH Hstep] using reachable_ind; intros fn resp.
  { by intros ?%elem_of_nil. }
  destruct (calls_step _ _ _ Hstep) as [->|(data & r & f & _ & Hev & _ & ->)];
    [apply IH|].
  intros [?|[= -> ->]%list_elem_of_singleton]%elem_of_app; [by eapply IH|done].
Qed.


(** ** The commands of the high-level client *)

(** X18.  A command whose first argument is a string other than ["raw"]
    is accepted by [newRequest] whatever its other arguments are, and its
    request is not of the raw form: what is written for it is the
    marshalled bytes and one newline.  This is the case of the commands
    that the typed getters, [SetProperty] and [Seek] pass to [Exec],
    whatever the property name, the value, the position and the mode. *)
Theorem plain_commands_accepted (rnd : Z) (ch : chan) (b : list Byte.byte) :
  let accepted command :=
    newRequest rnd ch command
    = Returns {| Command := command; RequestID := rnd; req_Response := ch;
                 RawString := EmptyString |} ∧
    outbound {| Command := command; RequestID := rnd; req_Response := ch;
                RawString := EmptyString |} b
    = b ++ [Byte.x0a] in
  (∀ verb args, verb ≠ "raw" → accepted (VString verb :: args)) ∧
  (∀ name v n mode,
     accepted (get_property_command name) ∧
     accepted (SetProperty_command name v) ∧
     accepted (Seek_command n mode)).
Proof.
  intros accepted. split; [|by intros name v n mode].
  intros verb args Hne%String.eqb_neq. unfold accepted, newRequest, outbound, is_raw.
  destruct args as [|arg args]; simpl; rewrite ?Hne; done.
Qed.

(** ** The further properties on the sample states *)

Lemma reachable_sys_returned_42 : reachable sys_returned_42.
Proof.
  exists (run_volume_42 ++ [ARead (Decoded data_reply_42 reply_42);
                            ARecv 0 CaseChan]).
  vm_compute. reflexivity.
Qed.

Lemma reachable_sys_seek : reachable sys_seek.
Proof.
  exists [ARegisterEvent "seek" 7%nat; ARead (Decoded data_seek event_seek)].
  vm_compute. reflexivity.
Qed.

Lemma marshal_error_drops_request_witness :
  ∃ s1, step (AMarshal None) sys_handed_42 = Some s1 ∧
        writer s1 = WIdle ∧
        chans (shared s1) !! 0%nat = Some [] ∧
        step (ARecv 0 CaseChan) s1 = None.
Proof.
  destruct (marshal_error_drops_request sys_handed_42 req_volume_42)
    as (s1 & Hstep & _ & Hw & _ & Hrest);
    [apply reachable_sys_handed_42 | reflexivity |].
  destruct (Hrest [] s1 eq_refl) as (Hc & _ & _ & Hcaller).
  exists s1. repeat split; try assumption.
  apply (Hcaller 0%nat). injection Hstep as <-. reflexivity.
Defined.

Lemma write_error_starves_caller_witness :
  ∃ s1, step AAfter sys_write_failed_42 = Some s1 ∧
        reqMap (shared s1) = delete 42 (reqMap (shared sys_write_failed_42)) ∧
        chans (shared s1) !! 0%nat = Some [].
Proof.
  destruct (write_error_starves_caller sys_write_failed_42 req_volume_42 0
              (ErrOther "write: broken pipe"))
    as (s1 & Hstep & Hmap & _ & _ & Hrest);
    [apply reachable_sys_write_failed_42 | reflexivity | reflexivity |].
  destruct (Hrest [] s1 eq_refl) as (Hc & _).
  exists s1. repeat split; assumption.
Defined.

Lemma send_timeout_leaves_no_trace_witness :
  ∃ s1, step (ASend 0 CaseTimer) sys_called_42 = Some s1 ∧
        callers s1 !! 0%nat = Some (Returned None (Some ErrTimeoutSend)) ∧
        shared s1 = shared sys_called_42.
Proof.
  destruct (send_timeout_leaves_no_trace sys_called_42 0 req_volume_42)
    as (s1 & Hstep & Hret & Hshared & _);
    [apply reachable_sys_called_42 | reflexivity |].
  exists s1. repeat split; assumption.
Defined.

Lemma Exec_returns_own_reply_witness :
  ∃ res, callers sys_returned_42 !! 0%nat = Some (Returned (Some res) None) ∧
         resp_RequestID res = 42 ∧ Event res = EmptyString.
Proof.
  apply (Exec_returns_own_reply sys_replied_42 sys_returned_42 0 req_volume_42);
    [apply reachable_sys_replied_42 | reflexivity | reflexivity].
Defined.


Lemma Exec_result_shape_witness :
  (is_Some (Some reply_42) ↔ @None error = None) ∧
  (∀ r, Some reply_42 = Some r → Event r = EmptyString).
Proof.
  destruct (Exec_result_shape sys_returned_42 0 (Some reply_42) None)
    as (Hiff & Hev & _); [apply reachable_sys_returned_42 | reflexivity |].
  split; assumption.
Defined.

Lemma InputCmd_never_nil_witness :
  ∃ e, InputCmd (Some reply_42) None = Some e ∧ e = errors_New "success".
Proof.
  destruct (InputCmd_never_nil sys_returned_42 0 (Some reply_42) None)
    as (e & He & Hr & _); [apply reachable_sys_returned_42 | reflexivity |].
  exists e. split; [exact He|]. apply (Hr reply_42). reflexivity.
Defined.

Lemma typed_getters_witness :
  GetFloatProperty (Some reply_42) None = (4632233691727265792, None) ∧
  GetBoolProperty (Some reply_42) None = (false, Some ErrInvalidType).
Proof.
  destruct (typed_getters sys_returned_42 0 (Some reply_42) None)
    as (_ & _ & Hsome & _); [apply reachable_sys_returned_42 | reflexivity |].
  destruct (Hsome reply_42 eq_refl) as (Hfloat & _ & _ & Hbool).
  split; [apply Hfloat; reflexivity|].
  apply Hbool. intros b Hb. discriminate Hb.
Defined.

Lemma reqMap_bounded_witness :
  Z.of_nat (size (reqMap (shared sys_volume_42))) ≤ 10000 ∧
  reqMap (shared sys_volume_42) !! 42 = Some req_volume_42.
Proof.
  destruct (reqMap_bounded sys_volume_42) as [Hsize _];
    [apply reachable_sys_volume_42|].
  split; [exact Hsize | reflexivity].
Defined.

Lemma conn_is_the_writes_witness :
  conn (shared sys_volume_42) = concat (written <$> log sys_volume_42).
Proof.
  destruct (conn_is_the_writes sys_volume_42) as [Hconn _];
    [apply reachable_sys_volume_42|].
  exact Hconn.
Defined.

Lemma Exec_round_trip_witness :
  ∃ s', run_moves (run_volume_42 ++ [ARead (Decoded data_reply_42 reply_42);
                                     ARecv 0 CaseChan]) boot = Some s' ∧
        callers s' = [Returned (Some reply_42) None].
Proof.
  destruct (Exec_round_trip boot cmd_volume 42 0%nat req_volume_42
              json_volume_42 data_reply_42 reply_42)
    as (s' & Hrun & Hcallers & _);
    [reflexivity | reflexivity | unfold Intn_range; lia | reflexivity
    | reflexivity | reflexivity | reflexivity |].
  exists s'. split; assumption.
Defined.


Lemma callbacks_only_get_events_witness :
  (7%nat, event_seek) ∈ calls (shared sys_seek) ∧
  Event event_seek ≠ EmptyString.
Proof.
  assert (Hin : (7%nat, event_seek) ∈ calls (shared sys_seek))
    by apply list_elem_of_here.
  split; [exact Hin|].
  exact (callbacks_only_get_events sys_seek reachable_sys_seek _ _ Hin).
Defined.

